(** * AVChat: multi-session realtime synchronisation

    A shallow embedding of the synchronisation code of the chat client:

    - [deduplicateMessages] (frontend/components/ChatInterface.tsx) and the
      [deduplicatedMessages] reduction of [PureMessageDisplay]
      (frontend/components/ChatMessageDisplay.tsx);
    - [trackAppendedMessage], [handleMessagesUpdated] and
      [handleStreamingBroadcast] of the [ChatInterface] component;
    - the [AppwriteRealtime] service (lib/appwriteRealtime.ts).

    Conventions.  A JavaScript string is a [string]; [String.length] plays
    the role of [.length].  Array indices are [Z] because [findIndex]
    answers [-1].  A [Date] is its [getTime()] value, a [Z] of milliseconds.
    [undefined] is [None].  Console output is not part of the model. *)

From Stdlib Require Import ZArith String Ascii.
From stdpp Require Import base tactics option list gmap strings sorting.

(** ** JavaScript library functions used by the code *)

(** [s.includes(sub)]: [sub] occurs somewhere in [s]. *)
Fixpoint includes (s sub : string) : bool :=
  if String.prefix sub s then true
  else match s with
       | EmptyString => false
       | String _ s' => includes s' sub
       end.

(** [l.findIndex(p)], counting from [i]; [-1] when no element satisfies [p]. *)
Fixpoint findIndex_from {A : Type} (p : A → bool) (l : list A) (i : Z) : Z :=
  match l with
  | [] => (-1)%Z
  | x :: l' => if p x then i else findIndex_from p l' (i + 1)%Z
  end.

Definition findIndex {A : Type} (p : A → bool) (l : list A) : Z :=
  findIndex_from p l 0%Z.

(** [l.find(p)] *)
Fixpoint find {A : Type} (p : A → bool) (l : list A) : option A :=
  match l with
  | [] => None
  | x :: l' => if p x then Some x else find p l'
  end.

(** [l.some(p)] *)
Definition some {A : Type} (p : A → bool) (l : list A) : bool := existsb p l.

(** [l.forEach((x, index) => ...)] and [l.reduce((s, x, index) => ..., s0)]:
    the callback threads the mutated state [s]. *)
Fixpoint forEach_from {A S : Type} (f : S → A → Z → S) (l : list A) (i : Z) (s : S) : S :=
  match l with
  | [] => s
  | x :: l' => forEach_from f l' (i + 1)%Z (f s x i)
  end.

Definition reduce {A S : Type} (f : S → A → Z → S) (s0 : S) (l : list A) : S :=
  forEach_from f l 0%Z s0.

(** A JavaScript [Map<string, V>] whose iteration order matters: entries in
    insertion order; [set] on a present key keeps the key's position. *)
Section JSMap.
Context {V : Type}.

Fixpoint Map_get (m : list (string * V)) (k : string) : option V :=
  match m with
  | [] => None
  | (k', v) :: m' => if String.eqb k' k then Some v else Map_get m' k
  end.

Fixpoint Map_set (m : list (string * V)) (k : string) (v : V) : list (string * V) :=
  match m with
  | [] => [(k, v)]
  | (k', v') :: m' =>
      if String.eqb k' k then (k, v) :: m' else (k', v') :: Map_set m' k v
  end.

Definition Map_values (m : list (string * V)) : list V := m.*2.
End JSMap.

(** ** The deduplication primitive *)

(** [T extends { id: string; content: string }] *)
Class Message (T : Type) := {
  id : T → string;
  content : T → string
}.

Section Deduplicate.
Context {T : Type} `{Message T}.

(** The replacement test, written identically in both sources:
    [message.content.length > existing.content.length ||
     (message.content.length === existing.content.length &&
      index > messages.findIndex(m => m.id === existing.id))]. *)
Definition replaces (messages : list T) (message existing : T) (index : Z) : bool :=
  (String.length (content existing) <? String.length (content message))
  || ((String.length (content message) =? String.length (content existing))
      && (findIndex (λ m, String.eqb (id m) (id existing)) messages <? index)%Z).

(** ChatInterface.tsx, [deduplicateMessages]: the body of the [forEach]. *)
Definition seen_step (messages : list T)
    (seen : list (string * T)) (message : T) (index : Z) : list (string * T) :=
  match Map_get seen (id message) with
  | None => Map_set seen (id message) message
  | Some existing =>
      if replaces messages message existing index
      then Map_set seen (id message) message
      else seen
  end.

Definition deduplicateMessages (messages : list T) : list T :=
  Map_values (forEach_from (seen_step messages) messages 0%Z []).

(** ChatMessageDisplay.tsx, [PureMessageDisplay]: the reducer.  The index
    found in [acc] is always in range; the [None] branch of the lookup
    stands for the unreachable [acc[existingIndex] === undefined]. *)
Definition acc_step (messages : list T)
    (acc : list T) (message : T) (index : Z) : list T :=
  let existingIndex := findIndex (λ m, String.eqb (id m) (id message)) acc in
  if (existingIndex =? -1)%Z then acc ++ [message]
  else match acc !! Z.to_nat existingIndex with
       | Some existing =>
           if replaces messages message existing index
           then <[Z.to_nat existingIndex := message]> acc
           else acc
       | None => acc
       end.

Definition deduplicatedMessages (messages : list T) : list T :=
  reduce (acc_step messages) [] messages.

(** *** Vocabulary of the statements *)

(** [m] is the record kept for its id among those of [l]: it occurs in [l]
    at a position [i], no record of [l] with the same id has a longer
    content, and every record with the same id that occurs after position
    [i] has a strictly shorter content. *)
Definition kept_in (l : list T) (m : T) : Prop :=
  ∃ i : nat, l !! i = Some m ∧
    ∀ (j : nat) (r : T), l !! j = Some r → id r = id m →
      String.length (content r) ≤ String.length (content m) ∧
      (i < j → String.length (content r) < String.length (content m)).

(** The number of records of [l] whose id is [k]. *)
Definition occurrences (k : string) (l : list T) : nat :=
  length (filter (λ m, id m = k) l).

(** What the [seen] map holds once the records of [pre] have been visited. *)
Record seen_inv (pre : list T) (seen : list (string * T)) : Prop := {
  seen_NoDup : NoDup seen.*1;
  seen_keys : ∀ k, k ∈ seen.*1 ↔ k ∈ id <$> pre;
  seen_kept : ∀ k v, (k, v) ∈ seen → id v = k ∧ kept_in pre v
}.
End Deduplicate.

(** ** Messages of the chat interface *)

Inductive Role := system | user | assistant | data.

(** [{ type: "text", text }] and the other part shapes of the chat SDK. *)
Record Part := { part_type : string; part_text : string }.

(** [UIMessage], with the extra fields the component reads through [as any]. *)
Record UIMessage := {
  msg_id : string;
  msg_role : Role;
  msg_content : string;
  msg_parts : list Part;
  msg_createdAt : option Z;
  msg_webSearchResults : option (list string);
  msg_attachments : option (list string);
  msg_model : option string;
  msg_imgurl : option string;
  msg_isImageGenerationLoading : bool
}.

#[export] Instance UIMessage_Message : Message UIMessage :=
  {| id := msg_id; content := msg_content |}.

(** A message as delivered by the ["messages_updated"] event ([any[]]). *)
Record DBMessage := {
  db_id : string;
  db_role : Role;
  db_content : string;
  db_parts : option (list Part);
  db_createdAt : option Z;
  db_webSearchResults : option (list string);
  db_attachments : option (list string);
  db_model : option string;
  db_imgurl : option string
}.

(** Modelled from the spec: the [StreamingState] type is declared in
    lib/streamingSync, which is not among the sources; these are the fields
    of the spec's data model, of which the component reads [messageId],
    [content], [isStreaming] and [sessionId]. *)
Record StreamingState := {
  ss_threadId : string;
  ss_messageId : string;
  ss_sessionId : string;
  ss_content : string;
  ss_isStreaming : bool;
  ss_lastUpdate : Z
}.

(** [{ ...msg, content: c }] *)
Definition with_content (msg : UIMessage) (c : string) : UIMessage :=
  {| msg_id := msg_id msg; msg_role := msg_role msg; msg_content := c;
     msg_parts := msg_parts msg; msg_createdAt := msg_createdAt msg;
     msg_webSearchResults := msg_webSearchResults msg;
     msg_attachments := msg_attachments msg; msg_model := msg_model msg;
     msg_imgurl := msg_imgurl msg;
     msg_isImageGenerationLoading := msg_isImageGenerationLoading msg |}.

(** Truthiness of an optional string: [undefined] and [""] are falsy. *)
Definition truthy (s : option string) : bool :=
  match s with
  | Some s => negb (String.eqb s "")
  | None => false
  end.

(** [a.createdAt ? new Date(a.createdAt).getTime() : 0] *)
Definition time (a : UIMessage) : Z :=
  match msg_createdAt a with
  | Some d => d
  | None => 0%Z
  end.

(** [l.sort((a, b) => key(a) - key(b))]: the sort is stable, so the result is
    the one of a stable insertion sort on the key. *)
Section Sort.
Context {A : Type} (key : A → Z).

Fixpoint insert_by (x : A) (l : list A) : list A :=
  match l with
  | [] => [x]
  | y :: l' => if (key x <=? key y)%Z then x :: y :: l' else y :: insert_by x l'
  end.

Fixpoint sort_by (l : list A) : list A :=
  match l with
  | [] => []
  | x :: l' => insert_by x (sort_by l')
  end.
End Sort.

(** ** State of the [ChatInterface] component *)

Inductive TimerAction :=
  | ScrollToBottom
  | StopTracking (messageId : string).

(** [messages]: the list held by [useChat]; [recentlyAppendedMessages]: the
    [useRef<Set<string>>]; [timers]: pending [setTimeout] callbacks with the
    time at which they are due; [setMessagesLog]: the lists passed to
    [setMessages] so far, oldest first. *)
Record Component := {
  messages : list UIMessage;
  recentlyAppendedMessages : gset string;
  timers : list (Z * TimerAction);
  clock : Z;
  setMessagesLog : list (list UIMessage)
}.

Definition setMessages (new : list UIMessage) (st : Component) : Component :=
  {| messages := new;
     recentlyAppendedMessages := recentlyAppendedMessages st;
     timers := timers st;
     clock := clock st;
     setMessagesLog := setMessagesLog st ++ [new] |}.

Definition setTimeout (action : TimerAction) (delay : Z) (st : Component) : Component :=
  {| messages := messages st;
     recentlyAppendedMessages := recentlyAppendedMessages st;
     timers := timers st ++ [((clock st + delay)%Z, action)];
     clock := clock st;
     setMessagesLog := setMessagesLog st |}.

(** What a timer callback does to the state: [scrollToBottom] touches only
    the DOM; the tracking timer removes its id from the set. *)
Definition fire (st : Component) (action : TimerAction) : Component :=
  match action with
  | ScrollToBottom => st
  | StopTracking messageId =>
      {| messages := messages st;
         recentlyAppendedMessages := recentlyAppendedMessages st ∖ {[messageId]};
         timers := timers st;
         clock := clock st;
         setMessagesLog := setMessagesLog st |}
  end.

(** The event loop lets [dt] milliseconds pass: the timers that are due by
    then run in the order of their due times, the others stay pending. *)
Definition advance (dt : Z) (st : Component) : Component :=
  let now := (clock st + dt)%Z in
  let due := filter (λ t, (t.1 ≤ now)%Z) (timers st) in
  let pending := filter (λ t, ¬ (t.1 ≤ now)%Z) (timers st) in
  foldl fire
    {| messages := messages st;
       recentlyAppendedMessages := recentlyAppendedMessages st;
       timers := pending;
       clock := now;
       setMessagesLog := setMessagesLog st |}
    (sort_by fst due).*2.

(** [trackAppendedMessage] *)
Definition trackAppendedMessage (messageId : string) (st : Component) : Component :=
  setTimeout (StopTracking messageId) 2000
    {| messages := messages st;
       recentlyAppendedMessages := {[messageId]} ∪ recentlyAppendedMessages st;
       timers := timers st;
       clock := clock st;
       setMessagesLog := setMessagesLog st |}.

(** ** The handlers of the [ChatInterface] component *)

(** [msg => ({ id: msg.id, ..., parts: msg.parts || [{ type: "text", text:
    msg.content }], ... })]: the conversion of a stored message. *)
Definition toUIMessage (msg : DBMessage) : UIMessage :=
  {| msg_id := db_id msg;
     msg_role := db_role msg;
     msg_content := db_content msg;
     msg_parts := default [{| part_type := "text"; part_text := db_content msg |}]
                          (db_parts msg);
     msg_createdAt := db_createdAt msg;
     msg_webSearchResults := db_webSearchResults msg;
     msg_attachments := db_attachments msg;
     msg_model := db_model msg;
     msg_imgurl := db_imgurl msg;
     msg_isImageGenerationLoading := false |}.

(** [set.has(x)] *)
Definition has (s : gset string) (x : string) : bool := bool_decide (x ∈ s).

(** [new Set(l.map(msg => msg.id))] *)
Definition idSet (l : list UIMessage) : gset string := list_to_set (id <$> l).

(** [new Map(l.map(msg => [msg.id, msg]))]: a later entry overrides. *)
Definition idMap (l : list UIMessage) : list (string * UIMessage) :=
  foldl (λ m msg, Map_set m (id msg) msg) [] l.

Definition wasLoading (currentMsg : UIMessage) : bool :=
  includes (content currentMsg) "Generating your image"
  || msg_isImageGenerationLoading currentMsg.

Definition nowHasImage (dbMsg : UIMessage) : bool :=
  truthy (msg_imgurl dbMsg)
  && negb (includes (content dbMsg) "Generating your image").

Section Handlers.
(** The [threadId] prop, the [userHasScrolledUp] state captured by the
    handlers, and the answer of [streamingSync.getSessionId()] (the
    broadcaster is not among the sources). *)
Context (threadId : string) (userHasScrolledUp : bool) (getSessionId : string).

(** [!currentMessageIds.has(dbMsg.id) &&
     !recentlyAppendedMessages.current.has(dbMsg.id)] *)
Definition isNew (st : Component) (dbMsg : UIMessage) : bool :=
  negb (has (idSet (messages st)) (id dbMsg))
  && negb (has (recentlyAppendedMessages st) (id dbMsg)).

Definition hasNewMessages (st : Component) (uiMessages : list UIMessage) : bool :=
  some (isNew st) uiMessages.

Definition hasMissingMessages (st : Component) (uiMessages : list UIMessage) : bool :=
  some (λ uiMsg, negb (has (idSet uiMessages) (id uiMsg))
                 && negb (has (recentlyAppendedMessages st) (id uiMsg)))
       (messages st).

Definition needsUpdate (st : Component) (dbMsg : UIMessage) : bool :=
  match find (λ msg, String.eqb (id msg) (id dbMsg)) (messages st) with
  | None => false
  | Some currentMsg =>
      let contentChanged := negb (String.eqb (content currentMsg) (content dbMsg)) in
      let imgUrlChanged :=
        negb (bool_decide (msg_imgurl currentMsg = msg_imgurl dbMsg)) in
      wasLoading currentMsg && nowHasImage dbMsg || contentChanged || imgUrlChanged
  end.

Definition hasUpdatedMessages (st : Component) (uiMessages : list UIMessage) : bool :=
  some (needsUpdate st) uiMessages.

(** The merge of either branch, before sorting: the current messages (each
    replaced by its stored version when [replace] is set), followed by the
    stored messages that are new. *)
Definition merged (replace : bool) (st : Component) (uiMessages : list UIMessage)
    : list UIMessage :=
  (if replace
   then (λ uiMsg, default uiMsg (Map_get (idMap uiMessages) (id uiMsg)))
          <$> messages st
   else messages st)
  ++ filter (λ dbMsg, isNew st dbMsg = true) uiMessages.

(** The listener of ["messages_updated"].  It is registered anew whenever
    [messages] changes, so the list it captured is the current one. *)
Definition handleMessagesUpdated (updatedThreadId : string)
    (updatedMessages : list DBMessage) (st : Component) : Component :=
  if String.eqb updatedThreadId threadId then
    let uiMessages := toUIMessage <$> updatedMessages in
    if hasNewMessages st uiMessages
       || hasMissingMessages st uiMessages
       || hasUpdatedMessages st uiMessages
    then
      let st' :=
        setMessages
          (deduplicateMessages
             (sort_by time (merged (hasUpdatedMessages st uiMessages) st uiMessages)))
          st in
      if negb userHasScrolledUp then setTimeout ScrollToBottom 30 st' else st'
    else st
  else st.

(** The updater passed to [setMessages] by the broadcast listener. *)
Definition applyBroadcast (streamingState : StreamingState) (now : Z)
    (prevMessages : list UIMessage) : list UIMessage :=
  let updatedMessages :=
    (λ msg, if String.eqb (id msg) (ss_messageId streamingState)
            then with_content msg (ss_content streamingState)
            else msg) <$> prevMessages in
  let messageExists :=
    some (λ msg, String.eqb (id msg) (ss_messageId streamingState)) prevMessages in
  deduplicateMessages
    (if negb messageExists
     then updatedMessages ++
          [{| msg_id := ss_messageId streamingState;
              msg_role := assistant;
              msg_content := ss_content streamingState;
              msg_parts := [{| part_type := "text";
                               part_text := ss_content streamingState |}];
              msg_createdAt := Some now;
              msg_webSearchResults := None;
              msg_attachments := None;
              msg_model := None;
              msg_imgurl := None;
              msg_isImageGenerationLoading := false |}]
     else updatedMessages).

(** The listener of ["streaming_broadcast"]. *)
Definition handleStreamingBroadcast (broadcastThreadId messageId : string)
    (streamingState : StreamingState) (st : Component) : Component :=
  if String.eqb broadcastThreadId threadId
     && negb (String.eqb (ss_sessionId streamingState) getSessionId)
  then
    if ss_isStreaming streamingState then
      let st' := setMessages (applyBroadcast streamingState (clock st) (messages st)) st in
      if negb userHasScrolledUp then setTimeout ScrollToBottom 5 st' else st'
    else st
  else st.
End Handlers.

(** ** The realtime service (lib/appwriteRealtime.ts) *)

Module AppwriteRealtime.

(** The four collections, and the keys under which they are registered. *)
Inductive Kind := Threads | Messages | MessageSummaries | Projects.

Definition key (k : Kind) : string :=
  match k with
  | Threads => "threads"
  | Messages => "messages"
  | MessageSummaries => "message_summaries"
  | Projects => "projects"
  end.

(** The keys of [RealtimeCallbacks]. *)
Inductive CallbackName :=
  | onThreadCreated | onThreadUpdated | onThreadDeleted
  | onMessageCreated | onMessageUpdated | onMessageDeleted
  | onMessageSummaryCreated | onMessageSummaryUpdated | onMessageSummaryDeleted
  | onProjectCreated | onProjectUpdated | onProjectDeleted.

(** A stored document: the payload of an event.  Of the four document
    types (declared in lib/appwriteDB) the service reads only [userId]. *)
Record Document := { doc_id : string; userId : string }.

(** [RealtimeResponseEvent<T>]; the payload is read through [?.]. *)
Record RealtimeResponseEvent := {
  events : list string;
  payload : option Document
}.

(** The identifiers of the database and of its collections: constants of
    lib/appwriteDB, which is not among the sources. *)
Class AppwriteDB := {
  DATABASE_ID : string;
  THREADS_COLLECTION_ID : string;
  MESSAGES_COLLECTION_ID : string;
  MESSAGE_SUMMARIES_COLLECTION_ID : string;
  PROJECTS_COLLECTION_ID : string
}.

(** A listener handed to [client.subscribe] is one of four closures, each
    determined by its collection and the [userId] it captured. *)
Record Listener := { kind : Kind; scope : string }.

Section Service.
(** The state the registered callbacks act on. *)
Context {U : Type}.

(** [RealtimeCallbacks]: an object with optional function fields. *)
Definition RealtimeCallbacks := CallbackName → option (Document → U → U).

(** The interface state together with the callbacks invoked so far. *)
Record World := {
  ui : U;
  invoked : list (CallbackName * Document)
}.

Inductive outcome :=
  | Returned (w : World)
  | Thrown (error : string).

(** [subscriptions]: the registry, from key to unsubscribe handle (the
    position of the subscription in the client); [client]: the
    subscriptions opened on the client, with their channel. *)
Record Service := {
  subscriptions : gmap string nat;
  callbacks : RealtimeCallbacks;
  client : list (string * Listener)
}.

(** [setCallbacks]: [{ ...this.callbacks, ...callbacks }].  A field of the
    argument is absent ([None]) or present, and a present field holds
    [undefined] ([Some None]) or a function; the spread copies every present
    field, also one that holds [undefined]. *)
Definition setCallbacks (new : CallbackName → option (option (Document → U → U)))
    (s : Service) : Service :=
  {| subscriptions := subscriptions s;
     callbacks := λ name, match new name with
                          | Some field => field
                          | None => callbacks s name
                          end;
     client := client s |}.

(** The twelve private [handle...] methods:
    [if (this.callbacks.onX) { this.callbacks.onX(doc); }] *)
Definition handle (cbs : RealtimeCallbacks) (name : CallbackName)
    (doc : Document) (w : World) : World :=
  match cbs name with
  | Some f => {| ui := f doc (ui w); invoked := invoked w ++ [(name, doc)] |}
  | None => w
  end.

(** The listener of threads, messages and projects, after the user
    filter: [const eventType = response.events[0]] and the chain of
    [eventType.includes(...)] tests.  On an empty [events] array
    [eventType] is [undefined] and the call of [includes] throws. *)
Definition byIncludes (cbs : RealtimeCallbacks)
    (created updated deleted : CallbackName)
    (response : RealtimeResponseEvent) (doc : Document) (w : World) : outcome :=
  match head (events response) with
  | None => Thrown "TypeError"
  | Some eventType =>
      if includes eventType ".create" then Returned (handle cbs created doc w)
      else if includes eventType ".update" then Returned (handle cbs updated doc w)
      else if includes eventType ".delete" then Returned (handle cbs deleted doc w)
      else Returned w
  end.

(** The listener of message summaries, after the user filter:
    [switch (response.events[0])] on three literal strings. *)
Definition bySwitch (cbs : RealtimeCallbacks)
    (created updated deleted : CallbackName)
    (response : RealtimeResponseEvent) (doc : Document) (w : World) : outcome :=
  match head (events response) with
  | Some "databases.*.collections.*.documents.*.create" =>
      Returned (handle cbs created doc w)
  | Some "databases.*.collections.*.documents.*.update" =>
      Returned (handle cbs updated doc w)
  | Some "databases.*.collections.*.documents.*.delete" =>
      Returned (handle cbs deleted doc w)
  | _ => Returned w
  end.

(** The callback of a subscription.  It starts with
    [if (response.payload?.userId !== userId) return;]. *)
Definition listen (l : Listener) (cbs : RealtimeCallbacks)
    (response : RealtimeResponseEvent) (w : World) : outcome :=
  match payload response with
  | None => Returned w
  | Some doc =>
      if negb (String.eqb (userId doc) (scope l)) then Returned w
      else match kind l with
           | Threads =>
               byIncludes cbs onThreadCreated onThreadUpdated onThreadDeleted
                 response doc w
           | Messages =>
               byIncludes cbs onMessageCreated onMessageUpdated onMessageDeleted
                 response doc w
           | MessageSummaries =>
               bySwitch cbs onMessageSummaryCreated onMessageSummaryUpdated
                 onMessageSummaryDeleted response doc w
           | Projects =>
               byIncludes cbs onProjectCreated onProjectUpdated onProjectDeleted
                 response doc w
           end
  end.

Context `{AppwriteDB}.

Definition channel (collection : string) : string :=
  "databases." +:+ DATABASE_ID +:+ ".collections." +:+ collection +:+ ".documents".

(** [client.subscribe(channel, listener)]: opens one more subscription on
    the client and answers its unsubscribe handle. *)
Definition subscribe (ch : string) (l : Listener) (s : Service) : nat * Service :=
  (length (client s),
   {| subscriptions := subscriptions s;
      callbacks := callbacks s;
      client := client s ++ [(ch, l)] |}).

(** [this.subscriptions.set(k, unsubscribe)] *)
Definition register (k : string) (unsubscribe : nat) (s : Service) : Service :=
  {| subscriptions := <[k := unsubscribe]> (subscriptions s);
     callbacks := callbacks s;
     client := client s |}.

Definition subscribeToThreads (userId : string) (s : Service) : Service :=
  match subscriptions s !! "threads" with
  | Some _ => s
  | None =>
      let '(unsubscribe, s') :=
        subscribe (channel THREADS_COLLECTION_ID)
          {| kind := Threads; scope := userId |} s in
      register "threads" unsubscribe s'
  end.

Definition subscribeToMessages (userId : string) (s : Service) : Service :=
  match subscriptions s !! "messages" with
  | Some _ => s
  | None =>
      let '(unsubscribe, s') :=
        subscribe (channel MESSAGES_COLLECTION_ID)
          {| kind := Messages; scope := userId |} s in
      register "messages" unsubscribe s'
  end.

Definition subscribeToMessageSummaries (userId : string) (s : Service) : Service :=
  match subscriptions s !! "message_summaries" with
  | Some _ => s
  | None =>
      let '(unsubscribe, s') :=
        subscribe (channel MESSAGE_SUMMARIES_COLLECTION_ID)
          {| kind := MessageSummaries; scope := userId |} s in
      register "message_summaries" unsubscribe s'
  end.

Definition subscribeToProjects (userId : string) (s : Service) : Service :=
  match subscriptions s !! "projects" with
  | Some _ => s
  | None =>
      let '(unsubscribe, s') :=
        subscribe (channel PROJECTS_COLLECTION_ID)
          {| kind := Projects; scope := userId |} s in
      register "projects" unsubscribe s'
  end.

Definition subscribeToAll (userId : string) (s : Service) : Service :=
  subscribeToProjects userId
    (subscribeToMessageSummaries userId
       (subscribeToMessages userId
          (subscribeToThreads userId s))).

(** The service as the module is loaded: [new Map()] and [{}]. *)
Definition initial : Service :=
  {| subscriptions := ∅; callbacks := λ _, None; client := [] |}.

(** The service together with the handles whose unsubscribe function has
    been called: the subscriptions of [client] that are closed. *)
Record Connection := {
  service : Service;
  closed : gset nat
}.

(** [unsubscribeFromAll]: calls every registered unsubscribe function, then
    clears the registry. *)
Definition unsubscribeFromAll (c : Connection) : Connection :=
  {| service := {| subscriptions := ∅;
                   callbacks := callbacks (service c);
                   client := client (service c) |};
     closed := closed c ∪ map_img (subscriptions (service c)) |}.

(** *** Vocabulary of the statements *)

(** A method of the service, run on a connection. *)
Definition on_service (f : Service → Service) (c : Connection) : Connection :=
  {| service := f (service c); closed := closed c |}.

(** The registry holds exactly the subscriptions that are open: a
    registered handle designates a subscription that is not closed, every
    subscription that is not closed is registered, and only subscriptions
    of the client are closed. *)
Definition registry_tracks_open (c : Connection) : Prop :=
  (∀ k h, subscriptions (service c) !! k = Some h →
          h < length (client (service c)) ∧ h ∉ closed c)
  ∧ (∀ h, h < length (client (service c)) →
          h ∈ closed c ∨ ∃ k, subscriptions (service c) !! k = Some h)
  ∧ (∀ h, h ∈ closed c → h < length (client (service c))).
End Service.

(** The collection whose listener invokes a callback. *)
Definition collection (name : CallbackName) : Kind :=
  match name with
  | onThreadCreated | onThreadUpdated | onThreadDeleted => Threads
  | onMessageCreated | onMessageUpdated | onMessageDeleted => Messages
  | onMessageSummaryCreated | onMessageSummaryUpdated
  | onMessageSummaryDeleted => MessageSummaries
  | onProjectCreated | onProjectUpdated | onProjectDeleted => Projects
  end.
End AppwriteRealtime.

(** ** Scenarios *)

(** A text message with the given id, content and creation time. *)
Definition textMessage (i c : string) (t : Z) : UIMessage :=
  {| msg_id := i; msg_role := assistant; msg_content := c;
     msg_parts := [{| part_type := "text"; part_text := c |}];
     msg_createdAt := Some t;
     msg_webSearchResults := None; msg_attachments := None;
     msg_model := None; msg_imgurl := None;
     msg_isImageGenerationLoading := false |}.

(** Its stored form. *)
Definition storedMessage (i c : string) (t : Z) : DBMessage :=
  {| db_id := i; db_role := assistant; db_content := c; db_parts := None;
     db_createdAt := Some t;
     db_webSearchResults := None; db_attachments := None;
     db_model := None; db_imgurl := None |}.

(** A component that shows [l], tracks no id and has no pending timer. *)
Definition showing (l : list UIMessage) : Component :=
  {| messages := l; recentlyAppendedMessages := ∅; timers := [];
     clock := 0%Z; setMessagesLog := [] |}.

(** A streaming update of message ["m2"] of thread ["t1"] from [session]. *)
Definition streamingUpdate (session c : string) (streaming : bool) : StreamingState :=
  {| ss_threadId := "t1"; ss_messageId := "m2"; ss_sessionId := session;
     ss_content := c; ss_isStreaming := streaming; ss_lastUpdate := 0%Z |}.

(** An event of the store about a document of [owner]. *)
Definition storeEvent (event owner : string) : AppwriteRealtime.RealtimeResponseEvent :=
  {| AppwriteRealtime.events := [event];
     AppwriteRealtime.payload :=
       Some {| AppwriteRealtime.doc_id := "d1"; AppwriteRealtime.userId := owner |} |}.

(** Callbacks that count their calls, registered under every name. *)
Definition counting : AppwriteRealtime.RealtimeCallbacks (U:=nat) :=
  λ _, Some (λ _ n, S n).

(** A message of the user. *)
Definition userMessage (i c : string) (t : Z) : UIMessage :=
  {| msg_id := i; msg_role := user; msg_content := c;
     msg_parts := [{| part_type := "text"; part_text := c |}];
     msg_createdAt := Some t;
     msg_webSearchResults := None; msg_attachments := None;
     msg_model := None; msg_imgurl := None;
     msg_isImageGenerationLoading := false |}.

(** A database with its four collections. *)
Definition mainDB : AppwriteRealtime.AppwriteDB :=
  {| AppwriteRealtime.DATABASE_ID := "main";
     AppwriteRealtime.THREADS_COLLECTION_ID := "threads";
     AppwriteRealtime.MESSAGES_COLLECTION_ID := "messages";
     AppwriteRealtime.MESSAGE_SUMMARIES_COLLECTION_ID := "message_summaries";
     AppwriteRealtime.PROJECTS_COLLECTION_ID := "projects" |}.

(** The connection of a session in which ["u1"] has logged in. *)
Definition loggedIn : AppwriteRealtime.Connection (U:=nat) :=
  AppwriteRealtime.on_service (AppwriteRealtime.subscribeToAll (H:=mainDB) "u1")
    {| AppwriteRealtime.service := AppwriteRealtime.initial;
       AppwriteRealtime.closed := ∅ |}.

(** ** Further handlers of the [ChatInterface] component *)

(** [handleRetryWithModel]: the updater it passes to [setMessages] for the
    retried [message].  A user message is kept with what precedes it, any
    other message is dropped with what follows it. *)
Definition retryUpdater (message : UIMessage) (messages : list UIMessage)
    : list UIMessage :=
  let index := findIndex (λ m, String.eqb (id m) (id message)) messages in
  match msg_role message with
  | user =>
      if negb (index =? -1)%Z
      then deduplicateMessages (take (Z.to_nat (index + 1)) messages)
      else deduplicateMessages messages
  | _ =>
      if negb (index =? -1)%Z
      then deduplicateMessages (take (Z.to_nat index) messages)
      else deduplicateMessages messages
  end.

(** The ref and the two pieces of state that [handleWebSearchMessage] sets. *)
Record SearchState := {
  nextResponseNeedsWebSearch : bool;
  isWebSearching : bool;
  webSearchQuery : string
}.

(** [msg.role === 'user'] *)
Definition isUser (msg : UIMessage) : bool :=
  match msg_role msg with
  | user => true
  | _ => false
  end.

(** [handleWebSearchMessage]; [selectedSearchType] and [messages] are the
    values the callback captured. *)
Definition handleWebSearchMessage (selectedSearchType : string)
    (messages : list UIMessage) (messageId : string) (searchQuery : option string)
    (st : SearchState) : SearchState :=
  if negb (String.eqb selectedSearchType "chat") then
    {| nextResponseNeedsWebSearch := true;
       isWebSearching := true;
       webSearchQuery :=
         if truthy searchQuery then default "" searchQuery
         else
           let lastUserMessage := last (filter (λ msg, isUser msg = true) messages) in
           if truthy (content <$> lastUserMessage)
           then default "" (content <$> lastUserMessage)
           else "search query" |}
  else
    {| nextResponseNeedsWebSearch := true;
       isWebSearching := isWebSearching st;
       webSearchQuery := webSearchQuery st |}.

(** [{ ...msg, webSearchResults: urls }] *)
Definition with_webSearchResults (msg : UIMessage) (urls : list string) : UIMessage :=
  {| msg_id := msg_id msg; msg_role := msg_role msg; msg_content := msg_content msg;
     msg_parts := msg_parts msg; msg_createdAt := msg_createdAt msg;
     msg_webSearchResults := Some urls;
     msg_attachments := msg_attachments msg; msg_model := msg_model msg;
     msg_imgurl := msg_imgurl msg;
     msg_isImageGenerationLoading := msg_isImageGenerationLoading msg |}.

(** The updater that [onFinish] and the streaming effect pass to
    [setMessages] to attach the urls extracted from a message. *)
Definition attachUrls (messageId : string) (extractedUrls : list string)
    (prevMessages : list UIMessage) : list UIMessage :=
  deduplicateMessages
    ((λ msg, if String.eqb (id msg) messageId
             then with_webSearchResults msg extractedUrls
             else msg) <$> prevMessages).

(** *** The effect that publishes the streaming message *)

(** [lastStreamingMessageRef.current] *)
Record StreamRef := {
  ref_id : string;
  ref_content : string;
  ref_lastLength : nat
}.

(** The callback of the running interval: it captured the [messages] of the
    render that started it, and the id of their last message. *)
Record Interval := {
  capturedMessages : list UIMessage;
  capturedId : string
}.

Record StreamSync := {
  lastStreamingMessageRef : option StreamRef;
  streamingIntervalRef : option Interval
}.

(** The calls of the broadcaster and of [setMessages] that the effect makes. *)
Inductive SyncCall :=
  | startStreaming (threadId messageId : string)
  | updateStreamingContent (threadId messageId content : string)
  | endStreaming (threadId messageId finalContent : string)
  | setMessagesWith (updater : list UIMessage → list UIMessage).

(** [msg.role === "assistant"] *)
Definition isAssistant (msg : UIMessage) : bool :=
  match msg_role msg with
  | assistant => true
  | _ => false
  end.

Section StreamingEffect.
(** The [threadId] prop and [extractUrlsFromContent] of WebSearchCitations,
    which is not among the sources. *)
Context (threadId : string) (extractUrlsFromContent : string → list string).

(** The body of the effect, run with the [status] and [messages] of a
    render. *)
Definition streamingEffect (status : string) (messages : list UIMessage)
    (s : StreamSync) : StreamSync * list SyncCall :=
  match (if String.eqb status "streaming" then last messages else None) with
  | Some lastMessage =>
      if isAssistant lastMessage then
        let isNewMessage :=
          match lastStreamingMessageRef s with
          | None => true
          | Some r => negb (String.eqb (ref_id r) (id lastMessage))
          end in
        let isContentUpdate :=
          match lastStreamingMessageRef s with
          | None => false
          | Some r =>
              negb (String.eqb (ref_content r) (content lastMessage))
              || negb (ref_lastLength r =? String.length (content lastMessage))
          end in
        let extractedUrls := extractUrlsFromContent (content lastMessage) in
        ({| lastStreamingMessageRef :=
              Some {| ref_id := id lastMessage;
                      ref_content := content lastMessage;
                      ref_lastLength := String.length (content lastMessage) |};
            streamingIntervalRef :=
              if isNewMessage
              then Some {| capturedMessages := messages;
                           capturedId := id lastMessage |}
              else streamingIntervalRef s |},
         (if isNewMessage then [startStreaming threadId (id lastMessage)] else [])
         ++ (if isNewMessage || isContentUpdate
             then updateStreamingContent threadId (id lastMessage) (content lastMessage)
                  :: (if negb (String.eqb (content lastMessage) "")
                         && negb (length extractedUrls =? 0)
                      then [setMessagesWith (attachUrls (id lastMessage) extractedUrls)]
                      else [])
             else []))
      else (s, [])
  | None =>
      match (if String.eqb status "streaming" then None
             else lastStreamingMessageRef s) with
      | Some lastRef =>
          ({| lastStreamingMessageRef := None; streamingIntervalRef := None |},
           [endStreaming threadId (ref_id lastRef) (ref_content lastRef)])
      | None => (s, [])
      end
  end.

(** One tick of the interval. *)
Definition intervalTick (i : Interval) : list SyncCall :=
  match last (capturedMessages i) with
  | Some currentLastMessage =>
      if isAssistant currentLastMessage
         && String.eqb (id currentLastMessage) (capturedId i)
      then [updateStreamingContent threadId (id currentLastMessage)
              (content currentLastMessage)]
      else []
  | None => []
  end.
End StreamingEffect.

(** *** The changelog of the version configuration *)

Record Feature := {
  feature_type : string;
  feature_title : string;
  feature_description : string;
  feature_icon : string;
  feature_color : string
}.

Record ChangelogEntry := {
  version : string;
  date : string;
  isLatest : option bool;
  features : list Feature
}.

Section Changelog.
(** The table of entries. *)
Context (CHANGELOG : list ChangelogEntry).

Definition getChangelogEntry (v : string) : option ChangelogEntry :=
  find (λ entry, String.eqb (version entry) v) CHANGELOG.

(** [CHANGELOG.find(entry => entry.isLatest) || CHANGELOG[0]] *)
Definition getLatestChangelog : option ChangelogEntry :=
  match find (λ entry, default false (isLatest entry)) CHANGELOG with
  | Some entry => Some entry
  | None => head CHANGELOG
  end.

Definition getAllVersions : list string := version <$> CHANGELOG.
End Changelog.

(** *** Vocabulary of the statements *)

(** The distinct elements of [l], each at its first occurrence. *)
Definition firstOccurrences (l : list string) : list string :=
  foldl (λ acc k, if bool_decide (k ∈ acc) then acc else acc ++ [k]) [] l.

(** The record a streaming broadcast adds for a message that is not shown. *)
Definition placeholder (streamingState : StreamingState) (now : Z) : UIMessage :=
  {| msg_id := ss_messageId streamingState;
     msg_role := assistant;
     msg_content := ss_content streamingState;
     msg_parts := [{| part_type := "text"; part_text := ss_content streamingState |}];
     msg_createdAt := Some now;
     msg_webSearchResults := None;
     msg_attachments := None;
     msg_model := None;
     msg_imgurl := None;
     msg_isImageGenerationLoading := false |}.

(** * Properties *)

(** ** Library functions *)

Lemma findIndex_from_bounds {A : Type} (p : A → bool) (l : list A) (s : Z) (i : nat) (x : A) :
  l !! i = Some x → p x = true →
  (s ≤ findIndex_from p l s ≤ s + Z.of_nat i)%Z.
Proof.
  revert s i. induction l as [|y l IH]; intros s i Hi Hp; [done|].
  simpl. destruct (p y) eqn:Hy; [lia|].
  destruct i as [|i]; simpl in Hi.
  - congruence.
  - specialize (IH (s + 1)%Z i Hi Hp). lia.
Qed.

Lemma NoDup_fst_unique {K V : Type} (l : list (K * V)) (k : K) (v1 v2 : V) :
  NoDup l.*1 → (k, v1) ∈ l → (k, v2) ∈ l → v1 = v2.
Proof.
  induction l as [|[k0 v0] l IH]; [by intros _ ?%elem_of_nil|].
  csimpl. rewrite NoDup_cons. intros [Hk0 Hnd] H1 H2.
  apply elem_of_cons in H1 as [H1|H1]; apply elem_of_cons in H2 as [H2|H2].
  - congruence.
  - exfalso. apply Hk0. apply list_elem_of_fmap. exists (k, v2). by simplify_eq.
  - exfalso. apply Hk0. apply list_elem_of_fmap. exists (k, v1). by simplify_eq.
  - by apply IH.
Qed.

Section JSMapFacts.
Context {V : Type}.
Implicit Types (m : list (string * V)) (k : string) (v : V).

Lemma Map_get_None m k : Map_get m k = None ↔ k ∉ m.*1.
Proof.
  induction m as [|[k' v'] m IH]; simpl.
  - split; [intros _; apply not_elem_of_nil|done].
  - rewrite not_elem_of_cons.
    destruct (String.eqb_spec k' k) as [->|Hne].
    + split; [done|]. by intros [? _].
    + rewrite IH. split; [by intros ?; split|by intros [_ ?]].
Qed.

Lemma Map_get_Some m k v : Map_get m k = Some v → (k, v) ∈ m.
Proof.
  induction m as [|[k' v'] m IH]; simpl; [done|].
  destruct (String.eqb_spec k' k) as [->|Hne].
  - intros [= ->]. left.
  - intros ?. right. auto.
Qed.

Lemma Map_get_is_Some m k : k ∈ m.*1 → is_Some (Map_get m k).
Proof.
  intros Hk. destruct (Map_get m k) eqn:E; [by eexists|].
  by apply Map_get_None in E.
Qed.

Lemma Map_set_absent m k v : k ∉ m.*1 → Map_set m k v = m ++ [(k, v)].
Proof.
  induction m as [|[k' v'] m IH]; simpl; [done|].
  rewrite not_elem_of_cons. intros [Hne Hk].
  destruct (String.eqb_spec k' k) as [->|_]; [done|]. by rewrite IH.
Qed.

Lemma Map_set_keys m k v : k ∈ m.*1 → (Map_set m k v).*1 = m.*1.
Proof.
  induction m as [|[k' v'] m IH]; simpl.
  - by intros ?%elem_of_nil.
  - destruct (String.eqb_spec k' k) as [->|Hne]; [done|].
    intros [?|?]%elem_of_cons; [congruence|]. csimpl. by rewrite IH.
Qed.

Lemma elem_of_Map_set m k v k' v' :
  NoDup m.*1 → (k', v') ∈ Map_set m k v →
  (k' = k ∧ v' = v) ∨ (k' ≠ k ∧ (k', v') ∈ m).
Proof.
  induction m as [|[k0 v0] m IH]; simpl.
  - intros _ ?%list_elem_of_singleton. left. by simplify_eq.
  - rewrite NoDup_cons. intros [Hk0 Hnd].
    destruct (String.eqb_spec k0 k) as [->|Hne].
    + intros [?|Hin]%elem_of_cons; [left; by simplify_eq|].
      right. split; [|by right].
      intros ->. apply Hk0. apply list_elem_of_fmap. by exists (k, v').
    + intros [?|Hin]%elem_of_cons.
      * simplify_eq. right. split; [done|left].
      * destruct (IH Hnd Hin) as [?|[? ?]]; [by left|].
        right. split; [done|by right].
Qed.

Lemma Map_set_elem m k v : (k, v) ∈ Map_set m k v.
Proof.
  induction m as [|[k0 v0] m IH]; simpl; [left|].
  destruct (String.eqb_spec k0 k); [left|by right].
Qed.

Lemma Map_set_other m k v k' v' :
  k' ≠ k → (k', v') ∈ m → (k', v') ∈ Map_set m k v.
Proof.
  intros Hne. induction m as [|[k0 v0] m IH]; simpl; [by intros ?%elem_of_nil|].
  destruct (String.eqb_spec k0 k) as [->|?].
  - intros [?|?]%elem_of_cons; [by simplify_eq|by right].
  - intros [?|?]%elem_of_cons; [simplify_eq; left|right; auto].
Qed.

Lemma Map_set_keys_elem m k v k' :
  k' ∈ (Map_set m k v).*1 ↔ k' = k ∨ k' ∈ m.*1.
Proof.
  destruct (decide (k ∈ m.*1)) as [Hin|Hnin].
  - rewrite Map_set_keys by done. split; [by right|]. by intros [->|?].
  - rewrite Map_set_absent by done. rewrite fmap_app, elem_of_app. simpl.
    rewrite list_elem_of_singleton. tauto.
Qed.

Lemma Map_set_NoDup m k v : NoDup m.*1 → NoDup (Map_set m k v).*1.
Proof.
  intros Hnd. destruct (decide (k ∈ m.*1)) as [Hin|Hnin].
  - by rewrite Map_set_keys.
  - rewrite Map_set_absent by done. rewrite fmap_app. simpl.
    apply NoDup_app. split; [done|]. split; [|apply NoDup_singleton].
    intros x Hx ->%list_elem_of_singleton. done.
Qed.
End JSMapFacts.

(** ** The deduplication primitive *)

Section DeduplicateFacts.
Context {T : Type} `{Message T}.
Implicit Types (messages pre suf : list T) (seen : list (string * T)) (x m r : T).

Lemma seen_inv_nil : seen_inv (T:=T) [] [].
Proof.
  split.
  - constructor.
  - done.
  - by intros k v ?%elem_of_nil.
Qed.

Lemma kept_in_elem_of l m : kept_in l m → m ∈ l.
Proof. intros (i & Hi & _). apply list_elem_of_lookup. eauto. Qed.

Lemma kept_in_snoc_other pre x m :
  id x ≠ id m → kept_in pre m → kept_in (pre ++ [x]) m.
Proof.
  intros Hne (i & Hi & Hall). exists i. split; [by apply lookup_app_l_Some|].
  intros j r [[_ Hj]|[_ <-]]%lookup_snoc_Some Hid; [eauto|done].
Qed.

Lemma kept_in_snoc_new pre x :
  (∀ r, r ∈ pre → id r = id x →
        String.length (content r) ≤ String.length (content x)) →
  kept_in (pre ++ [x]) x.
Proof.
  intros Hall. exists (length pre). split.
  - apply lookup_snoc_Some. by right.
  - intros j r [[Hlt Hj]|[-> <-]]%lookup_snoc_Some Hid.
    + split; [|lia]. apply Hall; [|done]. apply list_elem_of_lookup. eauto.
    + split; [done|lia].
Qed.

Lemma kept_in_snoc_shorter pre x m :
  String.length (content x) < String.length (content m) →
  kept_in pre m → kept_in (pre ++ [x]) m.
Proof.
  intros Hlt (i & Hi & Hall). exists i. split; [by apply lookup_app_l_Some|].
  intros j r [[_ Hj]|[_ <-]]%lookup_snoc_Some Hid; [eauto|].
  split; [lia|done].
Qed.

Lemma seen_inv_set pre seen x :
  seen_inv pre seen →
  (∀ r, r ∈ pre → id r = id x →
        String.length (content r) ≤ String.length (content x)) →
  seen_inv (pre ++ [x]) (Map_set seen (id x) x).
Proof.
  intros [Hnd Hkeys Hkept] Hall. split.
  - by apply Map_set_NoDup.
  - intros k. rewrite Map_set_keys_elem, Hkeys, fmap_app, elem_of_app.
    simpl. rewrite list_elem_of_singleton. tauto.
  - intros k v Hin.
    apply elem_of_Map_set in Hin as [[-> ->]|[Hne Hin]]; [| |done].
    + split; [done|]. by apply kept_in_snoc_new.
    + destruct (Hkept _ _ Hin) as [<- Hk]. split; [done|].
      apply kept_in_snoc_other; [congruence|done].
Qed.

Lemma seen_inv_skip pre seen x existing :
  seen_inv pre seen → (id x, existing) ∈ seen →
  String.length (content x) < String.length (content existing) →
  seen_inv (pre ++ [x]) seen.
Proof.
  intros [Hnd Hkeys Hkept] Hin Hlt. split; [done|..].
  - intros k. rewrite Hkeys, fmap_app, elem_of_app. simpl.
    rewrite list_elem_of_singleton. split; [by left|]. intros [? | ->]; [done|].
    apply Hkeys. apply list_elem_of_fmap. by exists (id x, existing).
  - intros k v Hv. destruct (Hkept _ _ Hv) as [<- Hk]. split; [done|].
    destruct (decide (id x = id v)) as [Heq|Hne].
    + rewrite Heq in Hin.
      pose proof (NoDup_fst_unique _ _ _ _ Hnd Hv Hin) as <-.
      by apply kept_in_snoc_shorter.
    + by apply kept_in_snoc_other.
Qed.

(** On a duplicate the position test of [replaces] always succeeds, so the
    test amounts to "at least as long". *)
Lemma replaces_spec messages pre suf x existing :
  messages = pre ++ x :: suf → existing ∈ pre →
  replaces messages x existing (Z.of_nat (length pre))
  = bool_decide (String.length (content existing) ≤ String.length (content x)).
Proof.
  intros -> [i Hi]%list_elem_of_lookup. unfold replaces, findIndex.
  pose proof (lookup_lt_Some _ _ _ Hi) as Hlen.
  pose proof (findIndex_from_bounds
                (λ m, String.eqb (id m) (id existing)) (pre ++ x :: suf) 0 i existing
                (lookup_app_l_Some _ _ _ _ Hi) (String.eqb_refl _)) as Hb.
  replace (_ <? Z.of_nat (length pre))%Z with true
    by (symmetry; apply Z.ltb_lt; lia).
  rewrite andb_true_r.
  destruct (Nat.ltb_spec (String.length (content existing)) (String.length (content x)));
    destruct (Nat.eqb_spec (String.length (content x)) (String.length (content existing)));
    simpl; symmetry; (apply bool_decide_eq_true; lia) || (apply bool_decide_eq_false; lia).
Qed.

Lemma seen_step_inv messages pre suf x seen :
  messages = pre ++ x :: suf → seen_inv pre seen →
  seen_inv (pre ++ [x]) (seen_step messages seen x (Z.of_nat (length pre))).
Proof.
  intros Hm Hinv. unfold seen_step.
  destruct (Map_get seen (id x)) as [existing|] eqn:Hget.
  - apply Map_get_Some in Hget.
    destruct (seen_kept _ _ Hinv _ _ Hget) as [Hid Hk].
    rewrite (replaces_spec messages pre suf) by eauto using kept_in_elem_of.
    case_bool_decide as Hle.
    + apply seen_inv_set; [done|]. intros r [j Hj]%list_elem_of_lookup Hr.
      destruct Hk as (i & _ & Hall).
      destruct (Hall j r Hj) as [? _]; [congruence|lia].
    + eapply seen_inv_skip; [done..|lia].
  - apply Map_get_None in Hget. apply seen_inv_set; [done|].
    intros r Hr Hid. exfalso. apply Hget, (seen_keys _ _ Hinv).
    rewrite <-Hid. by apply list_elem_of_fmap_2.
Qed.

Lemma forEach_seen_inv messages suf pre seen :
  messages = pre ++ suf → seen_inv pre seen →
  seen_inv messages
    (forEach_from (seen_step messages) suf (Z.of_nat (length pre)) seen).
Proof.
  revert pre seen. induction suf as [|x suf IH]; intros pre seen Hm Hinv; simpl.
  - by rewrite Hm, app_nil_r.
  - replace (Z.of_nat (length pre) + 1)%Z with (Z.of_nat (length (pre ++ [x])))
      by (rewrite length_app; simpl; lia).
    apply IH.
    + by rewrite <-app_assoc.
    + by eapply seen_step_inv.
Qed.

Lemma deduplicateMessages_inv messages :
  seen_inv messages (forEach_from (seen_step messages) messages 0%Z []).
Proof. apply (forEach_seen_inv messages messages [] []); [done|apply seen_inv_nil]. Qed.

Lemma seen_inv_ids pre seen : seen_inv pre seen → id <$> seen.*2 = seen.*1.
Proof.
  intros Hinv. rewrite <-list_fmap_compose. apply list_fmap_ext.
  intros i [k v] Hkv. simpl.
  by destruct (seen_kept _ _ Hinv k v (list_elem_of_lookup_2 _ _ _ Hkv)).
Qed.
End DeduplicateFacts.

Section ReducerFacts.
Context {T : Type} `{Message T}.
Implicit Types (messages pre suf : list T) (seen : list (string * T)) (x m r : T).

(** Searching the values of [seen] by id finds the slot that [Map_get]
    reads and [Map_set] overwrites. *)
Lemma findIndex_values seen k (s : Z) :
  (∀ k' v, (k', v) ∈ seen → id v = k') →
  match Map_get seen k with
  | None => findIndex_from (λ m, String.eqb (id m) k) seen.*2 s = (-1)%Z
  | Some v =>
      ∃ n : nat,
        findIndex_from (λ m, String.eqb (id m) k) seen.*2 s = (s + Z.of_nat n)%Z
        ∧ seen.*2 !! n = Some v
        ∧ ∀ x, (Map_set seen k x).*2 = <[n := x]> seen.*2
  end.
Proof.
  revert s. induction seen as [|[k0 v0] seen IH]; intros s Hc; [done|].
  csimpl. rewrite (Hc k0 v0) by left.
  destruct (String.eqb_spec k0 k) as [->|Hne].
  - exists 0. split; [f_equal; lia|]. done.
  - assert (∀ k' v, (k', v) ∈ seen → id v = k') as Hc' by (intros; apply Hc; by right).
    specialize (IH (s + 1)%Z Hc'). destruct (Map_get seen k) as [v|]; [|done].
    destruct IH as (n & Hn & Hv & Hset). exists (S n).
    split; [rewrite Hn; lia|]. split; [done|].
    intros x. csimpl. by rewrite Hset.
Qed.

Lemma acc_step_seen_step messages pre seen x (i : Z) :
  seen_inv pre seen →
  acc_step messages seen.*2 x i = (seen_step messages seen x i).*2.
Proof.
  intros Hinv. unfold acc_step, seen_step, findIndex.
  pose proof (findIndex_values seen (id x) 0
                (λ k v Hkv, proj1 (seen_kept _ _ Hinv k v Hkv))) as Hf.
  destruct (Map_get seen (id x)) as [existing|] eqn:Hget.
  - destruct Hf as (n & -> & Hv & Hset).
    replace (0 + Z.of_nat n =? -1)%Z with false by (symmetry; apply Z.eqb_neq; lia).
    replace (Z.to_nat (0 + Z.of_nat n)) with n by lia.
    rewrite Hv. destruct (replaces messages x existing i); [by rewrite Hset|done].
  - rewrite Hf. simpl. apply Map_get_None in Hget.
    by rewrite Map_set_absent, fmap_app.
Qed.

Lemma forEach_acc_step messages suf pre seen :
  messages = pre ++ suf → seen_inv pre seen →
  forEach_from (acc_step messages) suf (Z.of_nat (length pre)) seen.*2
  = (forEach_from (seen_step messages) suf (Z.of_nat (length pre)) seen).*2.
Proof.
  revert pre seen. induction suf as [|x suf IH]; intros pre seen Hm Hinv; simpl; [done|].
  rewrite (acc_step_seen_step messages pre) by done.
  replace (Z.of_nat (length pre) + 1)%Z with (Z.of_nat (length (pre ++ [x])))
    by (rewrite length_app; simpl; lia).
  apply IH.
  - by rewrite <-app_assoc.
  - by eapply seen_step_inv.
Qed.

(** The reducer of the display component computes the same list. *)
Lemma deduplicatedMessages_deduplicateMessages messages :
  deduplicatedMessages messages = deduplicateMessages messages.
Proof.
  apply (forEach_acc_step messages messages [] []); [done|apply seen_inv_nil].
Qed.

Lemma deduplicateMessages_kept messages m :
  m ∈ deduplicateMessages messages → kept_in messages m.
Proof.
  unfold deduplicateMessages, Map_values.
  intros ([k v] & -> & Hkv)%list_elem_of_fmap.
  by destruct (seen_kept _ _ (deduplicateMessages_inv messages) _ _ Hkv).
Qed.

Lemma deduplicateMessages_subset messages m :
  m ∈ deduplicateMessages messages → m ∈ messages.
Proof. intros ?. by apply kept_in_elem_of, deduplicateMessages_kept. Qed.

Lemma deduplicateMessages_NoDup messages :
  NoDup (id <$> deduplicateMessages messages).
Proof.
  unfold deduplicateMessages, Map_values.
  rewrite (seen_inv_ids _ _ (deduplicateMessages_inv messages)).
  apply (seen_NoDup _ _ (deduplicateMessages_inv messages)).
Qed.

Lemma deduplicateMessages_ids messages k :
  k ∈ id <$> deduplicateMessages messages ↔ k ∈ id <$> messages.
Proof.
  unfold deduplicateMessages, Map_values.
  rewrite (seen_inv_ids _ _ (deduplicateMessages_inv messages)).
  apply (seen_keys _ _ (deduplicateMessages_inv messages)).
Qed.

Lemma occurrences_notin (l : list T) k : k ∉ id <$> l → occurrences k l = 0.
Proof.
  unfold occurrences. induction l as [|x l IH]; [done|].
  csimpl. rewrite not_elem_of_cons. intros [Hne Hl].
  rewrite filter_cons_False by (simpl; congruence). auto.
Qed.

Lemma occurrences_NoDup (l : list T) k :
  NoDup (id <$> l) → k ∈ id <$> l → occurrences k l = 1.
Proof.
  unfold occurrences. induction l as [|x l IH]; [by intros _ ?%elem_of_nil|].
  csimpl. rewrite NoDup_cons. intros [Hx Hnd] Hk.
  destruct (decide (id x = k)) as [<-|Hne].
  - rewrite filter_cons_True by done. simpl. f_equal. by apply occurrences_notin.
  - rewrite filter_cons_False by done.
    apply elem_of_cons in Hk as [?|?]; [congruence|auto].
Qed.

Lemma deduplicateMessages_occurrences messages k :
  occurrences k (deduplicateMessages messages)
  = if decide (k ∈ id <$> messages) then 1 else 0.
Proof.
  case_decide as Hk.
  - apply occurrences_NoDup; [apply deduplicateMessages_NoDup|].
    by apply deduplicateMessages_ids.
  - apply occurrences_notin. by rewrite deduplicateMessages_ids.
Qed.

(** A list without duplicate ids is left as it is. *)
Lemma forEach_seen_step_NoDup messages suf (i : Z) seen :
  NoDup (seen.*1 ++ (id <$> suf)) →
  forEach_from (seen_step messages) suf i seen = seen ++ ((λ m, (id m, m)) <$> suf).
Proof.
  revert i seen. induction suf as [|x suf IH]; intros i seen Hnd; simpl.
  - by rewrite app_nil_r.
  - assert (id x ∉ seen.*1) as Hx.
    { apply NoDup_app in Hnd as (_ & Hd & _). intros Hin. apply (Hd _ Hin). left. }
    unfold seen_step at 2. rewrite (proj2 (Map_get_None seen (id x)) Hx).
    rewrite Map_set_absent by done. rewrite IH.
    + by rewrite <-app_assoc.
    + rewrite fmap_app, <-app_assoc. done.
Qed.

Lemma deduplicateMessages_NoDup_id messages :
  NoDup (id <$> messages) → deduplicateMessages messages = messages.
Proof.
  intros Hnd. unfold deduplicateMessages, Map_values.
  rewrite forEach_seen_step_NoDup by done. simpl.
  rewrite <-list_fmap_compose. apply list_fmap_id.
Qed.
End ReducerFacts.

(** ** Sorting *)

Section SortFacts.
Context {A : Type} (key : A → Z).

Lemma insert_by_Permutation x (l : list A) : insert_by key x l ≡ₚ x :: l.
Proof.
  induction l as [|y l IH]; simpl; [done|].
  destruct (key x <=? key y)%Z; [done|].
  rewrite IH. apply Permutation_swap.
Qed.

Lemma sort_by_Permutation (l : list A) : sort_by key l ≡ₚ l.
Proof.
  induction l as [|x l IH]; simpl; [done|].
  by rewrite insert_by_Permutation, IH.
Qed.

Lemma elem_of_sort_by x (l : list A) : x ∈ sort_by key l ↔ x ∈ l.
Proof. by rewrite sort_by_Permutation. Qed.

(** A list that is already in ascending order of its keys is not moved. *)
Lemma sort_by_sorted (l : list A) :
  Sorted (λ a b, (key a ≤ key b)%Z) l → sort_by key l = l.
Proof.
  induction 1 as [|x l Hl IH Hhd]; simpl; [done|].
  rewrite IH. destruct Hhd as [|y l' Hxy]; simpl; [done|].
  by rewrite (proj2 (Z.leb_le _ _) Hxy).
Qed.
End SortFacts.

(** ** Timers and the tracked set *)

Lemma fire_messages st action : messages (fire st action) = messages st.
Proof. by destruct action. Qed.

Lemma fire_setMessagesLog st action : setMessagesLog (fire st action) = setMessagesLog st.
Proof. by destruct action. Qed.

Lemma foldl_fire_messages actions st : messages (foldl fire st actions) = messages st.
Proof.
  revert st. induction actions as [|a actions IH]; intros st; simpl; [done|].
  by rewrite IH, fire_messages.
Qed.

Lemma foldl_fire_tracked actions st x :
  x ∈ recentlyAppendedMessages (foldl fire st actions)
  ↔ x ∈ recentlyAppendedMessages st ∧ StopTracking x ∉ actions.
Proof.
  revert st. induction actions as [|a actions IH]; intros st; simpl.
  - split; [intros ?; split; [done|apply not_elem_of_nil]|by intros [? _]].
  - rewrite IH, not_elem_of_cons. destruct a as [|y]; simpl.
    + split; [intros [? ?]|intros [? [_ ?]]]; done.
    + rewrite elem_of_difference, elem_of_singleton.
      split.
      * intros [[? ?] ?]. split; [done|]. split; [congruence|done].
      * intros [? [? ?]]. split; [|done]. split; [done|congruence].
  Qed.

Lemma advance_messages dt st : messages (advance dt st) = messages st.
Proof. unfold advance. by rewrite foldl_fire_messages. Qed.

Lemma advance_tracked dt st x :
  x ∈ recentlyAppendedMessages (advance dt st)
  ↔ x ∈ recentlyAppendedMessages st
    ∧ ∀ due, (due, StopTracking x) ∈ timers st → (clock st + dt < due)%Z.
Proof.
  unfold advance. rewrite foldl_fire_tracked. simpl.
  apply and_iff_compat_l. split.
  - intros Hn due Hin. destruct (decide (due ≤ clock st + dt)%Z) as [Hle|]; [|lia].
    exfalso. apply Hn. apply list_elem_of_fmap. exists (due, StopTracking x).
    split; [done|]. apply elem_of_sort_by. apply list_elem_of_filter. done.
  - intros Hall ([due a] & Ha & Hin)%list_elem_of_fmap. simpl in Ha. subst a.
    apply elem_of_sort_by, list_elem_of_filter in Hin as [Hle Hin]. simpl in Hle.
    specialize (Hall due Hin). lia.
Qed.

Lemma trackAppendedMessage_messages x st :
  messages (trackAppendedMessage x st) = messages st.
Proof. done. Qed.

(** ** The broadcast listener *)

Lemma some_true {A : Type} (p : A → bool) (l : list A) :
  some p l = true ↔ ∃ x, x ∈ l ∧ p x = true.
Proof.
  unfold some. rewrite existsb_exists.
  split; intros (x & Hx & Hp); exists x; (split; [|done]); by apply list_elem_of_In.
Qed.

Lemma some_false {A : Type} (p : A → bool) (l : list A) :
  some p l = false ↔ ∀ x, x ∈ l → p x = false.
Proof.
  rewrite <-not_true_iff_false, some_true. split.
  - intros Hn x Hx. apply not_true_iff_false. intros Hp. apply Hn. eauto.
  - intros Hall (x & Hx & Hp). rewrite (Hall x Hx) in Hp. done.
Qed.

Lemma with_content_id msg c : id (with_content msg c) = id msg.
Proof. done. Qed.

Lemma with_content_content msg c : content (with_content msg c) = c.
Proof. done. Qed.

Section BroadcastFacts.
Context (threadId : string) (userHasScrolledUp : bool) (getSessionId : string).

Lemma messages_setTimeout action delay st :
  messages (setTimeout action delay st) = messages st.
Proof. done. Qed.

(** What a broadcast that passes the guards does to the list. *)
Lemma handleStreamingBroadcast_applied broadcastThreadId messageId ss st :
  broadcastThreadId = threadId → ss_sessionId ss ≠ getSessionId →
  ss_isStreaming ss = true →
  messages (handleStreamingBroadcast threadId userHasScrolledUp getSessionId
              broadcastThreadId messageId ss st)
  = applyBroadcast ss (clock st) (messages st).
Proof.
  intros -> Hpeer Hs. unfold handleStreamingBroadcast.
  rewrite String.eqb_refl, (proj2 (String.eqb_neq _ _) Hpeer), Hs. simpl.
  by destruct userHasScrolledUp.
Qed.

(** After the update every record of the message carries the broadcast
    content, and there is exactly one such record. *)
Lemma applyBroadcast_content ss now prev :
  occurrences (ss_messageId ss) (applyBroadcast ss now prev) = 1
  ∧ ∀ m, m ∈ applyBroadcast ss now prev → id m = ss_messageId ss →
         content m = ss_content ss.
Proof.
  unfold applyBroadcast.
  set (upd := λ msg : UIMessage,
         if String.eqb (id msg) (ss_messageId ss)
         then with_content msg (ss_content ss) else msg).
  assert (∀ m, m ∈ upd <$> prev → id m = ss_messageId ss →
               content m = ss_content ss) as Hupd.
  { intros m (msg & -> & _)%list_elem_of_fmap. unfold upd.
    destruct (String.eqb_spec (id msg) (ss_messageId ss)); [done|].
    intros ?. done. }
  split.
  - rewrite deduplicateMessages_occurrences. rewrite decide_True; [done|].
    destruct (some _ prev) eqn:Hex; simpl.
    + apply some_true in Hex as (msg & Hmsg & Hid%String.eqb_eq).
      apply list_elem_of_fmap. exists (upd msg). split; [|by apply list_elem_of_fmap_2].
      unfold upd. rewrite (proj2 (String.eqb_eq _ _) Hid). done.
    + rewrite fmap_app, elem_of_app. right. simpl. left.
  - intros m Hm%deduplicateMessages_subset Hid.
    destruct (some _ prev); simpl in Hm; [by apply Hupd|].
    apply elem_of_app in Hm as [Hm|Hm%list_elem_of_singleton]; [by apply Hupd|].
    by subst m.
Qed.
End BroadcastFacts.

(** ** The listener of stored-message updates *)

Lemma has_true (s : gset string) (x : string) : has s x = true ↔ x ∈ s.
Proof. apply bool_decide_eq_true. Qed.

Lemma has_false (s : gset string) (x : string) : has s x = false ↔ x ∉ s.
Proof. apply bool_decide_eq_false. Qed.

Lemma elem_of_idSet (l : list UIMessage) (x : string) : x ∈ idSet l ↔ x ∈ id <$> l.
Proof. apply elem_of_list_to_set. Qed.

Lemma elem_of_Map_set_weak {V : Type} (m : list (string * V)) k v k' v' :
  (k', v') ∈ Map_set m k v → (k' = k ∧ v' = v) ∨ (k', v') ∈ m.
Proof.
  induction m as [|[k0 v0] m IH]; simpl.
  - intros ?%list_elem_of_singleton. left. by simplify_eq.
  - destruct (String.eqb_spec k0 k) as [->|Hne].
    + intros [?|?]%elem_of_cons; [left; by simplify_eq|right; by right].
    + intros [?|Hin]%elem_of_cons; [right; simplify_eq; left|].
      destruct (IH Hin) as [?|?]; [by left|right; by right].
Qed.

Lemma foldl_Map_set_elem (l : list UIMessage) acc k v :
  (k, v) ∈ foldl (λ m msg, Map_set m (id msg) msg) acc l →
  (k, v) ∈ acc ∨ (id v = k ∧ v ∈ l).
Proof.
  revert acc. induction l as [|x l IH]; intros acc; simpl; [by left|].
  intros [Hin|[? ?]]%IH; [|right; split; [done|by right]].
  apply elem_of_Map_set_weak in Hin as [[-> ->]|?]; [right; split; [done|left]|by left].
Qed.

Lemma idMap_get (l : list UIMessage) k v :
  Map_get (idMap l) k = Some v → id v = k ∧ v ∈ l.
Proof.
  intros Hin%Map_get_Some. unfold idMap in Hin.
  by apply foldl_Map_set_elem in Hin as [?%elem_of_nil|?].
Qed.

Lemma isNew_true st dbMsg :
  isNew st dbMsg = true
  ↔ (id dbMsg ∉ id <$> messages st) ∧ (id dbMsg ∉ recentlyAppendedMessages st).
Proof.
  unfold isNew. rewrite andb_true_iff, !negb_true_iff, !has_false, elem_of_idSet. done.
Qed.

(** A tracked id is never taken for the id of a new message. *)
Lemma tracked_not_new st dbMsg :
  id dbMsg ∈ recentlyAppendedMessages st → isNew st dbMsg = false.
Proof.
  intros Hin. apply not_true_iff_false. by intros [_ Hn]%isNew_true.
Qed.

(** Where the records of the merged list come from. *)
Lemma elem_of_merged replace st uiMessages m :
  m ∈ merged replace st uiMessages →
  (∃ u, u ∈ messages st ∧ id m = id u ∧ (m = u ∨ m ∈ uiMessages))
  ∨ (m ∈ uiMessages ∧ (id m ∉ id <$> messages st)).
Proof.
  unfold merged. intros [Hm|Hm]%elem_of_app.
  - left. destruct replace.
    + apply list_elem_of_fmap in Hm as (u & -> & Hu). exists u. split; [done|].
      destruct (Map_get (idMap uiMessages) (id u)) as [dbMsg|] eqn:Hget; simpl.
      * apply idMap_get in Hget as [? ?]. split; [done|by right].
      * split; [done|by left].
    + exists m. split; [done|]. split; [done|by left].
  - right. apply list_elem_of_filter in Hm as [Hn%isNew_true Hm]. split; [done|].
    by destruct Hn.
Qed.

Lemma merged_ids replace st uiMessages k :
  k ∈ id <$> messages st → k ∈ id <$> merged replace st uiMessages.
Proof.
  intros (u & -> & Hu)%list_elem_of_fmap. unfold merged.
  rewrite fmap_app, elem_of_app. left. destruct replace; [|by apply list_elem_of_fmap_2].
  rewrite <-list_fmap_compose. apply list_elem_of_fmap. exists u. split; [|done].
  unfold compose.
  destruct (Map_get (idMap uiMessages) (id u)) as [dbMsg|] eqn:Hget; simpl; [|done].
  by apply idMap_get in Hget as [? ?].
Qed.

Lemma merged_nil st : merged false st [] = messages st.
Proof. unfold merged. by rewrite filter_nil, app_nil_r. Qed.

Section UpdateFacts.
Context (threadId : string) (userHasScrolledUp : bool).

(** The listener either leaves the component alone or passes the sorted,
    deduplicated merge to [setMessages]. *)
Lemma handleMessagesUpdated_cases updatedThreadId updatedMessages st :
  let uiMessages := toUIMessage <$> updatedMessages in
  let st' := handleMessagesUpdated threadId userHasScrolledUp
               updatedThreadId updatedMessages st in
  if String.eqb updatedThreadId threadId
     && (hasNewMessages st uiMessages || hasMissingMessages st uiMessages
         || hasUpdatedMessages st uiMessages)
  then messages st'
       = deduplicateMessages
           (sort_by time (merged (hasUpdatedMessages st uiMessages) st uiMessages))
       ∧ setMessagesLog st' = setMessagesLog st ++ [messages st']
  else st' = st.
Proof.
  simpl. unfold handleMessagesUpdated.
  destruct (String.eqb updatedThreadId threadId); simpl; [|done].
  destruct (_ || _ || _); [|done].
  by destruct userHasScrolledUp.
Qed.

(** A record whose id the component already shows, with the same content
    in every stored copy, stays single and keeps its content. *)
Lemma handleMessagesUpdated_same_content updatedThreadId updatedMessages st k c :
  occurrences k (messages st) = 1 →
  (∀ m, m ∈ messages st → id m = k → content m = c) →
  (∀ d, d ∈ updatedMessages → db_id d = k → db_content d = c) →
  let st' := handleMessagesUpdated threadId userHasScrolledUp
               updatedThreadId updatedMessages st in
  occurrences k (messages st') = 1
  ∧ ∀ m, m ∈ messages st' → id m = k → content m = c.
Proof.
  intros Hocc Hcur Hdb. simpl.
  pose proof (handleMessagesUpdated_cases updatedThreadId updatedMessages st) as Hc.
  simpl in Hc. destruct (_ && _).
  2:{ by rewrite Hc. }
  destruct Hc as [-> _].
  assert (k ∈ id <$> messages st) as Hk.
  { destruct (decide (k ∈ id <$> messages st)) as [|Hn]; [done|].
    rewrite (occurrences_notin _ _ Hn) in Hocc. done. }
  split.
  - rewrite deduplicateMessages_occurrences. rewrite decide_True; [done|].
    apply list_elem_of_fmap.
    apply (merged_ids (hasUpdatedMessages st (toUIMessage <$> updatedMessages))
             st (toUIMessage <$> updatedMessages)) in Hk.
    apply list_elem_of_fmap in Hk as (m & -> & Hm). exists m. split; [done|].
    by apply elem_of_sort_by.
  - intros m Hm%deduplicateMessages_subset%elem_of_sort_by%elem_of_merged Hid.
    assert (m ∈ toUIMessage <$> updatedMessages → content m = c) as Hui.
    { intros (d & -> & Hd)%list_elem_of_fmap. by apply Hdb. }
    destruct Hm as [(u & Hu & Hmu & [->|Hm])|[Hm Hn]]; [by apply Hcur|by apply Hui|].
    exfalso. apply Hn. by subst k.
Qed.
End UpdateFacts.

Lemma hasNewMessages_true st uiMessages :
  hasNewMessages st uiMessages = true
  ↔ ∃ dbMsg, dbMsg ∈ uiMessages
      ∧ (id dbMsg ∉ id <$> messages st)
      ∧ (id dbMsg ∉ recentlyAppendedMessages st).
Proof.
  unfold hasNewMessages. rewrite some_true.
  split; intros (d & Hd & Hn); exists d; (split; [done|]); by apply isNew_true.
Qed.

Lemma hasMissingMessages_true st uiMessages :
  hasMissingMessages st uiMessages = true
  ↔ ∃ uiMsg, uiMsg ∈ messages st
      ∧ (id uiMsg ∉ id <$> uiMessages)
      ∧ (id uiMsg ∉ recentlyAppendedMessages st).
Proof.
  unfold hasMissingMessages. rewrite some_true.
  split; intros (m & Hm & Hn); exists m; (split; [done|]).
  - apply andb_true_iff in Hn as [H1 H2].
    apply negb_true_iff, has_false in H1. apply negb_true_iff, has_false in H2.
    by rewrite elem_of_idSet in H1.
  - destruct Hn as [H1 H2]. apply andb_true_iff.
    split; apply negb_true_iff, has_false; [by rewrite elem_of_idSet|done].
Qed.

Lemma needsUpdate_true st dbMsg :
  needsUpdate st dbMsg = true
  ↔ ∃ currentMsg,
      find (λ msg, String.eqb (id msg) (id dbMsg)) (messages st) = Some currentMsg
      ∧ (wasLoading currentMsg && nowHasImage dbMsg = true
         ∨ content currentMsg ≠ content dbMsg
         ∨ msg_imgurl currentMsg ≠ msg_imgurl dbMsg).
Proof.
  unfold needsUpdate.
  destruct (find _ (messages st)) as [cur|]; [|split; [done|by intros (? & ? & _)]].
  rewrite !orb_true_iff, !negb_true_iff, String.eqb_neq, bool_decide_eq_false.
  split.
  - intros Hc. exists cur. split; [done|tauto].
  - intros (? & [= <-] & Hc). tauto.
Qed.

Lemma hasUpdatedMessages_true st uiMessages :
  hasUpdatedMessages st uiMessages = true
  ↔ ∃ dbMsg currentMsg, dbMsg ∈ uiMessages
      ∧ find (λ msg, String.eqb (id msg) (id dbMsg)) (messages st) = Some currentMsg
      ∧ (wasLoading currentMsg && nowHasImage dbMsg = true
         ∨ content currentMsg ≠ content dbMsg
         ∨ msg_imgurl currentMsg ≠ msg_imgurl dbMsg).
Proof.
  unfold hasUpdatedMessages. rewrite some_true. split.
  - intros (d & Hd & (cur & ? & ?)%needsUpdate_true). by exists d, cur.
  - intros (d & cur & Hd & ? & ?). exists d. split; [done|].
    apply needsUpdate_true. by exists cur.
Qed.

Lemma hasMissingMessages_nil st :
  hasMissingMessages st [] = true
  ↔ ∃ m, m ∈ messages st ∧ id m ∉ recentlyAppendedMessages st.
Proof.
  rewrite hasMissingMessages_true.
  split; intros (m & Hm & Hn); exists m; (split; [done|]).
  - by destruct Hn.
  - split; [apply not_elem_of_nil|done].
Qed.

(** ** The realtime service *)

Section RealtimeFacts.
Import AppwriteRealtime.
Context {U : Type}.
Context `{AppwriteDB}.
Implicit Types (s : Service (U:=U)) (w : World (U:=U)).

(** A key that is registered makes the subscription method return at once. *)
Ltac again :=
  intros [h Hh];
  unfold AppwriteRealtime.subscribeToThreads, AppwriteRealtime.subscribeToMessages,
    AppwriteRealtime.subscribeToMessageSummaries, AppwriteRealtime.subscribeToProjects;
  by rewrite Hh.

(** A subscription method only adds to the registry. *)
Ltac keeps s key :=
  intros [h Hh];
  unfold AppwriteRealtime.subscribeToThreads, AppwriteRealtime.subscribeToMessages,
    AppwriteRealtime.subscribeToMessageSummaries, AppwriteRealtime.subscribeToProjects;
  destruct (subscriptions s !! key) eqn:Hkey; simpl; [by rewrite Hh|];
  match goal with
  | |- is_Some (<[_ := _]> _ !! ?k) =>
      destruct (decide (key = k)) as [<-|Hne];
      [rewrite lookup_insert_eq|rewrite lookup_insert_ne by done; rewrite Hh];
      by eexists
  end.

Lemma subscribeToThreads_again u s :
  is_Some (subscriptions s !! "threads") → subscribeToThreads u s = s.
Proof. again. Qed.
Lemma subscribeToMessages_again u s :
  is_Some (subscriptions s !! "messages") → subscribeToMessages u s = s.
Proof. again. Qed.
Lemma subscribeToMessageSummaries_again u s :
  is_Some (subscriptions s !! "message_summaries") → subscribeToMessageSummaries u s = s.
Proof. again. Qed.
Lemma subscribeToProjects_again u s :
  is_Some (subscriptions s !! "projects") → subscribeToProjects u s = s.
Proof. again. Qed.

Lemma subscribeToThreads_keeps u s k :
  is_Some (subscriptions s !! k) → is_Some (subscriptions (subscribeToThreads u s) !! k).
Proof. keeps s "threads". Qed.
Lemma subscribeToMessages_keeps u s k :
  is_Some (subscriptions s !! k) → is_Some (subscriptions (subscribeToMessages u s) !! k).
Proof. keeps s "messages". Qed.
Lemma subscribeToMessageSummaries_keeps u s k :
  is_Some (subscriptions s !! k) →
  is_Some (subscriptions (subscribeToMessageSummaries u s) !! k).
Proof. keeps s "message_summaries". Qed.
Lemma subscribeToProjects_keeps u s k :
  is_Some (subscriptions s !! k) → is_Some (subscriptions (subscribeToProjects u s) !! k).
Proof. keeps s "projects". Qed.

Ltac registers s key :=
  unfold AppwriteRealtime.subscribeToThreads, AppwriteRealtime.subscribeToMessages,
    AppwriteRealtime.subscribeToMessageSummaries, AppwriteRealtime.subscribeToProjects;
  destruct (subscriptions s !! key) eqn:Hkey; simpl;
  [by rewrite Hkey|by rewrite lookup_insert_eq].

Lemma subscribeToThreads_registers u s :
  is_Some (subscriptions (subscribeToThreads u s) !! "threads").
Proof. registers s "threads". Qed.
Lemma subscribeToMessages_registers u s :
  is_Some (subscriptions (subscribeToMessages u s) !! "messages").
Proof. registers s "messages". Qed.
Lemma subscribeToMessageSummaries_registers u s :
  is_Some (subscriptions (subscribeToMessageSummaries u s) !! "message_summaries").
Proof. registers s "message_summaries". Qed.
Lemma subscribeToProjects_registers u s :
  is_Some (subscriptions (subscribeToProjects u s) !! "projects").
Proof. registers s "projects". Qed.

Lemma subscribeToAll_registers u s (k : Kind) :
  is_Some (subscriptions (subscribeToAll u s) !! key k).
Proof.
  unfold AppwriteRealtime.subscribeToAll. destruct k; simpl.
  - apply subscribeToProjects_keeps, subscribeToMessageSummaries_keeps,
      subscribeToMessages_keeps, subscribeToThreads_registers.
  - apply subscribeToProjects_keeps, subscribeToMessageSummaries_keeps,
      subscribeToMessages_registers.
  - apply subscribeToProjects_keeps, subscribeToMessageSummaries_registers.
  - apply subscribeToProjects_registers.
Qed.

Lemma subscribeToAll_again u s :
  (∀ k : Kind, is_Some (subscriptions s !! key k)) → subscribeToAll u s = s.
Proof.
  intros Hall. unfold AppwriteRealtime.subscribeToAll.
  rewrite (subscribeToThreads_again u s (Hall Threads)).
  rewrite (subscribeToMessages_again u s (Hall Messages)).
  rewrite (subscribeToMessageSummaries_again u s (Hall MessageSummaries)).
  apply (subscribeToProjects_again u s (Hall Projects)).
Qed.

(** Whatever the registry held before, a call that follows a call of
    [subscribeToAll] changes nothing, also for another user. *)
Lemma subscribeToAll_idempotent u u' s :
  subscribeToAll u' (subscribeToAll u s) = subscribeToAll u s.
Proof. apply subscribeToAll_again. intros k. apply subscribeToAll_registers. Qed.

Lemma foldl_subscribeToAll us u s :
  foldl (λ s u, subscribeToAll u s) (subscribeToAll u s) us = subscribeToAll u s.
Proof.
  induction us as [|u' us IH]; simpl; [done|].
  by rewrite subscribeToAll_idempotent.
Qed.

(** The first call on the freshly loaded service. *)
Lemma subscribeToAll_initial u :
  subscribeToAll u (initial (U:=U))
  = {| subscriptions :=
         <["projects" := 3]> (<["message_summaries" := 2]>
           (<["messages" := 1]> (<["threads" := 0]> ∅)));
       callbacks := λ _, None;
       client :=
         [ (channel THREADS_COLLECTION_ID,
            {| kind := Threads; scope := u |});
           (channel MESSAGES_COLLECTION_ID,
            {| kind := Messages; scope := u |});
           (channel MESSAGE_SUMMARIES_COLLECTION_ID,
            {| kind := MessageSummaries; scope := u |});
           (channel PROJECTS_COLLECTION_ID,
            {| kind := Projects; scope := u |}) ] |}.
Proof.
  unfold AppwriteRealtime.subscribeToAll, AppwriteRealtime.subscribeToThreads,
    AppwriteRealtime.subscribeToMessages, AppwriteRealtime.subscribeToMessageSummaries,
    AppwriteRealtime.subscribeToProjects, initial. simpl.
  rewrite lookup_empty. simpl.
  rewrite lookup_insert_ne by done. rewrite lookup_empty. simpl.
  rewrite !lookup_insert_ne by done. rewrite lookup_empty. simpl.
  rewrite !lookup_insert_ne by done. rewrite lookup_empty. simpl.
  done.
Qed.
End RealtimeFacts.

(** * The claims *)

Section DeduplicateClaims.
Context {T : Type} `{Message T}.

(** C1.  Both deduplication routines keep, for every id of the input, a
    record of that id; a record [m] they keep stands in the input at a
    position [i] such that no record with the same id is longer than [m]
    and every record with the same id after position [i] is strictly
    shorter: among the duplicates the longest wins, among equally long
    ones the latest, and a shorter one never replaces the kept one. *)
Theorem deduplicate_keeps_longest_latest (messages : list T) :
  (∀ r, r ∈ messages → ∃ m, m ∈ deduplicateMessages messages ∧ id m = id r)
  ∧ (∀ m, m ∈ deduplicateMessages messages →
       ∃ i : nat, messages !! i = Some m ∧
         ∀ (j : nat) (r : T), messages !! j = Some r → id r = id m →
           String.length (content r) ≤ String.length (content m) ∧
           (i < j → String.length (content r) < String.length (content m)))
  ∧ deduplicatedMessages messages = deduplicateMessages messages.
Proof.
  split; [|split].
  - intros r Hr.
    assert (id r ∈ id <$> deduplicateMessages messages) as Hin
      by (apply deduplicateMessages_ids; by apply list_elem_of_fmap_2).
    apply list_elem_of_fmap in Hin as (m & ? & ?). by exists m.
  - intros m Hm. by apply deduplicateMessages_kept.
  - apply deduplicatedMessages_deduplicateMessages.
Qed.

(** C3.  In the output of both deduplication routines an id occurs exactly
    once when it occurs in the input, however often, and not at all
    otherwise. *)
Theorem deduplicate_each_id_once (messages : list T) (k : string) :
  occurrences k (deduplicateMessages messages)
  = (if decide (k ∈ id <$> messages) then 1 else 0)
  ∧ occurrences k (deduplicatedMessages messages)
    = (if decide (k ∈ id <$> messages) then 1 else 0)
  ∧ NoDup (id <$> deduplicateMessages messages).
Proof.
  rewrite deduplicatedMessages_deduplicateMessages.
  split; [|split]; try apply deduplicateMessages_occurrences.
  apply deduplicateMessages_NoDup.
Qed.
End DeduplicateClaims.

Lemma deduplicate_keeps_longest_latest_witness :
  let messages := [textMessage "a" "xx" 1; textMessage "b" "y" 2;
                   textMessage "a" "zz" 3; textMessage "a" "z" 4] in
  deduplicateMessages messages = [textMessage "a" "zz" 3; textMessage "b" "y" 2]
  ∧ ∃ i : nat, messages !! i = Some (textMessage "a" "zz" 3) ∧
      ∀ (j : nat) (r : UIMessage), messages !! j = Some r →
        id r = id (textMessage "a" "zz" 3) →
        String.length (content r) ≤ String.length (content (textMessage "a" "zz" 3)) ∧
        (i < j → String.length (content r)
                 < String.length (content (textMessage "a" "zz" 3))).
Proof.
  intros messages. split; [reflexivity|].
  apply (proj1 (proj2 (deduplicate_keeps_longest_latest messages))).
  vm_compute. left.
Defined.

Section BroadcastClaims.
Context (threadId : string) (userHasScrolledUp : bool) (getSessionId : string).

(** C2, as the code has it.  Two streaming broadcasts of peer sessions for
    the same message of the thread: after each of them the list holds
    exactly one record of the message, whose content is the content of the
    broadcast delivered last, whichever of the two is longer. *)
Theorem peer_broadcasts_last_delivered_wins
    (messageId1 messageId2 : string) (ss1 ss2 : StreamingState) (st : Component) :
  ss_sessionId ss1 ≠ getSessionId → ss_sessionId ss2 ≠ getSessionId →
  ss_isStreaming ss1 = true → ss_isStreaming ss2 = true →
  ss_messageId ss1 = ss_messageId ss2 →
  let st1 := handleStreamingBroadcast threadId userHasScrolledUp getSessionId
               threadId messageId1 ss1 st in
  let st2 := handleStreamingBroadcast threadId userHasScrolledUp getSessionId
               threadId messageId2 ss2 st1 in
  (occurrences (ss_messageId ss1) (messages st1) = 1
   ∧ ∀ m, m ∈ messages st1 → id m = ss_messageId ss1 → content m = ss_content ss1)
  ∧ (occurrences (ss_messageId ss1) (messages st2) = 1
     ∧ ∀ m, m ∈ messages st2 → id m = ss_messageId ss1 → content m = ss_content ss2).
Proof.
  intros Hp1 Hp2 Hs1 Hs2 Hid st1 st2. unfold st2, st1.
  rewrite !(handleStreamingBroadcast_applied threadId) by done.
  split; [apply applyBroadcast_content|].
  rewrite Hid. apply applyBroadcast_content.
Qed.

(** C4.  A broadcast that carries the session id of the local session
    leaves the component as it is, so that two runs on two such
    broadcasts end in the same state. *)
Theorem self_broadcast_not_applied
    (broadcastThreadId1 messageId1 broadcastThreadId2 messageId2 : string)
    (ss1 ss2 : StreamingState) (st : Component) :
  ss_sessionId ss1 = getSessionId → ss_sessionId ss2 = getSessionId →
  handleStreamingBroadcast threadId userHasScrolledUp getSessionId
    broadcastThreadId1 messageId1 ss1 st = st
  ∧ handleStreamingBroadcast threadId userHasScrolledUp getSessionId
      broadcastThreadId1 messageId1 ss1 st
    = handleStreamingBroadcast threadId userHasScrolledUp getSessionId
        broadcastThreadId2 messageId2 ss2 st.
Proof.
  intros H1 H2. unfold handleStreamingBroadcast.
  rewrite H1, H2, String.eqb_refl, !andb_false_r. done.
Qed.

(** C10.  A broadcast whose [isStreaming] flag is off leaves the component
    as it is, whichever session and thread it comes from. *)
Theorem terminal_broadcast_not_applied
    (broadcastThreadId messageId : string) (ss : StreamingState) (st : Component) :
  ss_isStreaming ss = false →
  handleStreamingBroadcast threadId userHasScrolledUp getSessionId
    broadcastThreadId messageId ss st = st.
Proof.
  intros Hs. unfold handleStreamingBroadcast. rewrite Hs. by destruct (_ && _).
Qed.
End BroadcastClaims.

(** C2, as stated, fails on Scenario B: the longer payload is shown first,
    and the stale shorter one then replaces it. *)
Lemma scenario_B_reverts_to_shorter :
  let shown := handleStreamingBroadcast "t1" false "local" "t1" "m2"
                 (streamingUpdate "peer" "Once upon a time" true) (showing []) in
  let after := handleStreamingBroadcast "t1" false "local" "t1" "m2"
                 (streamingUpdate "peer" "Once upon a" true) shown in
  content <$> messages shown = ["Once upon a time"]
  ∧ content <$> messages after = ["Once upon a"].
Proof. vm_compute. done. Qed.

Lemma peer_broadcasts_last_delivered_wins_witness :
  let st1 := handleStreamingBroadcast "t1" false "local" "t1" "m2"
               (streamingUpdate "peer" "Once upon a time" true) (showing []) in
  let st2 := handleStreamingBroadcast "t1" false "local" "t1" "m2"
               (streamingUpdate "peer" "Once upon a" true) st1 in
  (occurrences "m2" (messages st1) = 1
   ∧ ∀ m, m ∈ messages st1 → id m = "m2" → content m = "Once upon a time")
  ∧ (occurrences "m2" (messages st2) = 1
     ∧ ∀ m, m ∈ messages st2 → id m = "m2" → content m = "Once upon a").
Proof.
  apply (peer_broadcasts_last_delivered_wins "t1" false "local" "m2" "m2"
           (streamingUpdate "peer" "Once upon a time" true)
           (streamingUpdate "peer" "Once upon a" true) (showing []));
    vm_compute; congruence.
Defined.

Lemma self_broadcast_not_applied_witness :
  let st := showing [textMessage "m2" "Once" 1] in
  handleStreamingBroadcast "t1" false "local" "t1" "m2"
    (streamingUpdate "local" "Once upon a time" true) st = st
  ∧ handleStreamingBroadcast "t1" false "local" "t1" "m2"
      (streamingUpdate "local" "Once upon a time" true) st
    = handleStreamingBroadcast "t1" false "local" "t1" "m2"
        (streamingUpdate "local" "Once upon" true) st.
Proof.
  apply (self_broadcast_not_applied "t1" false "local" "t1" "m2" "t1" "m2"
           (streamingUpdate "local" "Once upon a time" true)
           (streamingUpdate "local" "Once upon" true));
    reflexivity.
Defined.

Lemma terminal_broadcast_not_applied_witness :
  let st := showing [textMessage "m2" "Once" 1] in
  handleStreamingBroadcast "t1" false "local" "t1" "m2"
    (streamingUpdate "peer" "final text" false) st = st.
Proof.
  apply (terminal_broadcast_not_applied "t1" false "local" "t1" "m2"
           (streamingUpdate "peer" "final text" false)).
  reflexivity.
Defined.

Section UpdateClaims.
Context (threadId : string) (userHasScrolledUp : bool).

Lemma handleMessagesUpdated_log updatedThreadId updatedMessages st :
  let uiMessages := toUIMessage <$> updatedMessages in
  setMessagesLog (handleMessagesUpdated threadId userHasScrolledUp
                    updatedThreadId updatedMessages st)
  ≠ setMessagesLog st
  ↔ updatedThreadId = threadId
    ∧ (hasNewMessages st uiMessages || hasMissingMessages st uiMessages
       || hasUpdatedMessages st uiMessages) = true.
Proof.
  simpl.
  pose proof (handleMessagesUpdated_cases threadId userHasScrolledUp
                updatedThreadId updatedMessages st) as Hc. simpl in Hc.
  destruct (String.eqb_spec updatedThreadId threadId) as [->|Hne]; simpl in Hc.
  - destruct (_ || _ || _).
    + destruct Hc as [_ ->]. split; [done|]. intros _ Heq.
      apply (f_equal length) in Heq. rewrite length_app in Heq. simpl in Heq. lia.
    + rewrite Hc. split; [done|]. by intros [_ ?].
  - rewrite Hc. split; [done|]. by intros [? _].
Qed.

(** C5.  The local session appends [m1] with content [c] and tracks its
    id; [dt] milliseconds later a notification of the store arrives in
    which every copy of [m1] has the content [c].  The list then still
    holds exactly one record of [m1], with content [c].  The id is in the
    tracked set as soon as it is tracked; after less than 2000 ms it is
    still there, unless an earlier timer for the same id is pending, and
    then no incoming record of that id counts as new; after 2000 ms it
    has left the set. *)
Theorem echo_of_local_append_not_duplicated
    (st : Component) (m1 c : string) (dt : Z)
    (updatedThreadId : string) (updatedMessages : list DBMessage) :
  occurrences m1 (messages st) = 1 →
  (∀ m, m ∈ messages st → id m = m1 → content m = c) →
  (∀ d, d ∈ updatedMessages → db_id d = m1 → db_content d = c) →
  let st1 := advance dt (trackAppendedMessage m1 st) in
  let st2 := handleMessagesUpdated threadId userHasScrolledUp
               updatedThreadId updatedMessages st1 in
  (occurrences m1 (messages st2) = 1
   ∧ ∀ m, m ∈ messages st2 → id m = m1 → content m = c)
  ∧ m1 ∈ recentlyAppendedMessages (trackAppendedMessage m1 st)
  ∧ ((dt < 2000)%Z → (∀ due, (due, StopTracking m1) ∉ timers st) →
     m1 ∈ recentlyAppendedMessages st1
     ∧ ∀ dbMsg, id dbMsg = m1 → isNew st1 dbMsg = false)
  ∧ ((2000 ≤ dt)%Z → m1 ∉ recentlyAppendedMessages st1).
Proof.
  intros Hocc Hcur Hdb st1 st2. split; [|split; [|split]].
  - apply handleMessagesUpdated_same_content; [| |done]; unfold st1;
      by rewrite advance_messages, trackAppendedMessage_messages.
  - simpl. set_solver.
  - intros Hdt Hfree.
    assert (m1 ∈ recentlyAppendedMessages st1) as Htracked.
    { apply advance_tracked. split; [simpl; set_solver|].
      simpl. intros due [Hin|Hin%list_elem_of_singleton]%elem_of_app.
      + by destruct (Hfree due).
      + simplify_eq. lia. }
    split; [done|]. intros dbMsg <-. by apply tracked_not_new.
  - intros Hdt Hin%advance_tracked. destruct Hin as [_ Hall].
    specialize (Hall (clock st + 2000)%Z). simpl in Hall.
    rewrite elem_of_app, list_elem_of_singleton in Hall.
    specialize (Hall (or_intror eq_refl)). lia.
Qed.

(** C8, as the code has it.  With an empty incoming list the listener
    leaves the component alone when every current message is tracked;
    when some current message is not tracked it passes the sorted,
    deduplicated current list to [setMessages]; either way a list in
    ascending order of creation time with distinct ids is the list
    afterwards.  In general [setMessages] is called exactly when the
    update is for this thread and some incoming id is neither shown nor
    tracked, or some shown id is neither incoming nor tracked, or some
    incoming record differs from the shown record of its id in content or
    image url or completes its pending image. *)
Theorem reconcile_empty_or_unchanged (st : Component) :
  let st' := handleMessagesUpdated threadId userHasScrolledUp threadId [] st in
  ((∀ m, m ∈ messages st → id m ∈ recentlyAppendedMessages st) → st' = st)
  ∧ ((∃ m, m ∈ messages st ∧ id m ∉ recentlyAppendedMessages st) →
     messages st' = deduplicateMessages (sort_by time (messages st))
     ∧ setMessagesLog st' = setMessagesLog st ++ [messages st'])
  ∧ (Sorted (λ a b, (time a ≤ time b)%Z) (messages st) →
     NoDup (id <$> messages st) → messages st' = messages st)
  ∧ ∀ (updatedThreadId : string) (updatedMessages : list DBMessage),
      let uiMessages := toUIMessage <$> updatedMessages in
      setMessagesLog (handleMessagesUpdated threadId userHasScrolledUp
                        updatedThreadId updatedMessages st)
      ≠ setMessagesLog st
      ↔ updatedThreadId = threadId
        ∧ ((∃ dbMsg, dbMsg ∈ uiMessages
              ∧ (id dbMsg ∉ id <$> messages st)
              ∧ (id dbMsg ∉ recentlyAppendedMessages st))
           ∨ (∃ uiMsg, uiMsg ∈ messages st
                ∧ (id uiMsg ∉ id <$> uiMessages)
                ∧ (id uiMsg ∉ recentlyAppendedMessages st))
           ∨ (∃ dbMsg currentMsg, dbMsg ∈ uiMessages
                ∧ find (λ msg, String.eqb (id msg) (id dbMsg)) (messages st)
                  = Some currentMsg
                ∧ (wasLoading currentMsg && nowHasImage dbMsg = true
                   ∨ content currentMsg ≠ content dbMsg
                   ∨ msg_imgurl currentMsg ≠ msg_imgurl dbMsg))).
Proof.
  intros st'.
  pose proof (handleMessagesUpdated_cases threadId userHasScrolledUp threadId [] st)
    as Hc. simpl in Hc. fold st' in Hc. rewrite String.eqb_refl in Hc.
  change (hasNewMessages st []) with false in Hc.
  change (hasUpdatedMessages st []) with false in Hc.
  simpl in Hc. rewrite orb_false_r, merged_nil in Hc.
  destruct (hasMissingMessages st []) eqn:Hmiss.
  - apply hasMissingMessages_nil in Hmiss as (m & Hm & Hn). destruct Hc as [Hmsg Hlog].
    split; [|split; [|split]].
    + intros Hall. by destruct (Hn (Hall m Hm)).
    + done.
    + intros Hs Hnd. by rewrite Hmsg, sort_by_sorted, deduplicateMessages_NoDup_id.
    + intros updatedThreadId updatedMessages uiMessages.
      rewrite handleMessagesUpdated_log. fold uiMessages.
      rewrite !orb_true_iff, hasNewMessages_true, hasMissingMessages_true,
        hasUpdatedMessages_true. tauto.
  - rewrite Hc. split; [done|split; [|split]].
    + intros (m & Hm & Hn).
      assert (hasMissingMessages st [] = true) as Ht
        by (apply hasMissingMessages_nil; eauto).
      congruence.
    + done.
    + intros updatedThreadId updatedMessages uiMessages.
      rewrite handleMessagesUpdated_log. fold uiMessages.
      rewrite !orb_true_iff, hasNewMessages_true, hasMissingMessages_true,
        hasUpdatedMessages_true. tauto.
Qed.
End UpdateClaims.

Lemma echo_of_local_append_not_duplicated_witness :
  let st := showing [textMessage "m1" "Hello" 1] in
  let st1 := advance 50 (trackAppendedMessage "m1" st) in
  let st2 := handleMessagesUpdated "t1" false "t1" [storedMessage "m1" "Hello" 1] st1 in
  (occurrences "m1" (messages st2) = 1
   ∧ ∀ m, m ∈ messages st2 → id m = "m1" → content m = "Hello")
  ∧ "m1" ∈ recentlyAppendedMessages (trackAppendedMessage "m1" st)
  ∧ ((50 < 2000)%Z → (∀ due, (due, StopTracking "m1") ∉ timers st) →
     "m1" ∈ recentlyAppendedMessages st1
     ∧ ∀ dbMsg, id dbMsg = "m1" → isNew st1 dbMsg = false)
  ∧ ((2000 ≤ 50)%Z → "m1" ∉ recentlyAppendedMessages st1).
Proof.
  apply (echo_of_local_append_not_duplicated "t1" false
           (showing [textMessage "m1" "Hello" 1]) "m1" "Hello" 50 "t1"
           [storedMessage "m1" "Hello" 1]).
  - vm_compute. reflexivity.
  - intros m Hm _. apply list_elem_of_singleton in Hm. subst m. reflexivity.
  - intros d Hd _. apply list_elem_of_singleton in Hd. subst d. reflexivity.
Defined.

(** C8, as stated, fails: on an empty incoming list the listener calls
    [setMessages] for a list whose only message is not tracked, although the
    list it passes is the current one; and it reorders a current list that
    is not in creation order. *)
Lemma reconcile_empty_still_updates :
  let st := showing [textMessage "m1" "Hello" 1] in
  let st' := handleMessagesUpdated "t1" false "t1" [] st in
  let unordered := showing [textMessage "m2" "later" 2; textMessage "m1" "earlier" 1] in
  (messages st' = messages st ∧ setMessagesLog st = []
   ∧ setMessagesLog st' = [[textMessage "m1" "Hello" 1]])
  ∧ messages (handleMessagesUpdated "t1" false "t1" [] unordered)
    = [textMessage "m1" "earlier" 1; textMessage "m2" "later" 2].
Proof. vm_compute. done. Qed.

Section RealtimeClaims.
Import AppwriteRealtime.
Context {U : Type}.
Context `{AppwriteDB}.

(** C6.  An event whose payload is not owned by the user the listener was
    subscribed for, or that has no payload, makes the listener of every
    collection return at once: the interface state is the same and no
    callback has been invoked. *)
Theorem foreign_event_dropped (l : Listener) (cbs : RealtimeCallbacks (U:=U))
    (response : RealtimeResponseEvent) (w : World) :
  userId <$> payload response ≠ Some (scope l) →
  listen l cbs response w = Returned w.
Proof.
  unfold listen. destruct (payload response) as [doc|]; simpl; [|done].
  destruct (String.eqb_spec (userId doc) (scope l)); [congruence|done].
Qed.

(** C7.  After one call of [subscribeToAll] on the freshly loaded service
    followed by any number of further calls, for whatever users, the
    service is as after the first call: the registry holds the four keys,
    each with the handle of the one subscription opened for its
    collection, the client has four subscriptions, and one more call
    changes nothing.  From any state a call that follows a call changes
    nothing. *)
Theorem subscribeToAll_idempotent_registry (u : string) (us : list string) :
  let s := foldl (λ s u', subscribeToAll u' s) (initial (U:=U)) (u :: us) in
  s = subscribeToAll u initial
  ∧ subscriptions s
    = <["projects" := 3]> (<["message_summaries" := 2]>
        (<["messages" := 1]> (<["threads" := 0]> ∅)))
  ∧ size (subscriptions s) = 4
  ∧ client s
    = [ (channel THREADS_COLLECTION_ID,
         {| kind := Threads; scope := u |});
        (channel MESSAGES_COLLECTION_ID,
         {| kind := Messages; scope := u |});
        (channel MESSAGE_SUMMARIES_COLLECTION_ID,
         {| kind := MessageSummaries; scope := u |});
        (channel PROJECTS_COLLECTION_ID,
         {| kind := Projects; scope := u |}) ]
  ∧ (∀ u', subscribeToAll u' s = s)
  ∧ ∀ (s0 : Service (U:=U)) (u1 u2 : string),
      subscribeToAll u2 (subscribeToAll u1 s0) = subscribeToAll u1 s0.
Proof.
  simpl. rewrite foldl_subscribeToAll.
  split; [done|]. rewrite subscribeToAll_initial. simpl.
  split; [done|]. split.
  { rewrite !map_size_insert_None; [done|..];
      rewrite ?lookup_insert_ne by done; apply lookup_empty. }
  split; [done|]. split.
  - intros u'. rewrite <-(subscribeToAll_initial u).
    apply subscribeToAll_idempotent.
  - intros s0 u1 u2. apply subscribeToAll_idempotent.
Qed.

(** Every listener invokes at most one callback. *)
Lemma listen_at_most_one (l : Listener) (cbs : RealtimeCallbacks (U:=U))
    (response : RealtimeResponseEvent) (w w' : World) :
  listen l cbs response w = Returned w' →
  w' = w ∨ ∃ name doc, invoked w' = invoked w ++ [(name, doc)].
Proof.
  assert (∀ name doc, handle cbs name doc w = w
                      ∨ ∃ name' doc', invoked (handle cbs name doc w)
                                      = invoked w ++ [(name', doc')]) as Hh.
  { intros name doc. unfold handle. destruct (cbs name); [right|by left].
    by exists name, doc. }
  assert (∀ c u d doc, byIncludes cbs c u d response doc w = Returned w' →
            w' = w ∨ ∃ name doc, invoked w' = invoked w ++ [(name, doc)]) as Hi.
  { intros c u' d doc. unfold byIncludes.
    destruct (head (events response)) as [eventType|]; [|done].
    repeat (destruct (includes eventType _)); intros [= <-]; auto. }
  unfold listen. destruct (payload response) as [doc|]; [|intros [= <-]; by left].
  destruct (negb _); [intros [= <-]; by left|].
  destruct (kind l); eauto.
  unfold bySwitch.
  repeat (case_match; try (intros [= <-]; auto; fail)).
Qed.
End RealtimeClaims.

Lemma foreign_event_dropped_witness :
  let w := {| AppwriteRealtime.ui := 0; AppwriteRealtime.invoked := [] |} in
  AppwriteRealtime.listen
    {| AppwriteRealtime.kind := AppwriteRealtime.Messages;
       AppwriteRealtime.scope := "u1" |}
    counting
    (storeEvent "databases.main.collections.messages.documents.d1.create" "u2") w
  = AppwriteRealtime.Returned w.
Proof.
  apply (foreign_event_dropped
           {| AppwriteRealtime.kind := AppwriteRealtime.Messages;
              AppwriteRealtime.scope := "u1" |}).
  vm_compute. congruence.
Defined.

(** C9 at a concrete event of the store: the listener of messages finds
    [".create"] in the event name and invokes its callback, the listener of
    message summaries compares the whole name with three literal patterns
    and invokes nothing; it reacts only to the literal pattern itself.  On
    an event without names the listener of messages throws. *)
Lemma summaries_listener_ignores_store_event :
  let w := {| AppwriteRealtime.ui := 0; AppwriteRealtime.invoked := [] |} in
  let doc := {| AppwriteRealtime.doc_id := "d1"; AppwriteRealtime.userId := "u1" |} in
  let messagesListener :=
    {| AppwriteRealtime.kind := AppwriteRealtime.Messages;
       AppwriteRealtime.scope := "u1" |} in
  let summariesListener :=
    {| AppwriteRealtime.kind := AppwriteRealtime.MessageSummaries;
       AppwriteRealtime.scope := "u1" |} in
  AppwriteRealtime.listen messagesListener counting
    (storeEvent "databases.main.collections.summaries.documents.d1.create" "u1") w
  = AppwriteRealtime.Returned
      {| AppwriteRealtime.ui := 1;
         AppwriteRealtime.invoked := [(AppwriteRealtime.onMessageCreated, doc)] |}
  ∧ AppwriteRealtime.listen summariesListener counting
      (storeEvent "databases.main.collections.summaries.documents.d1.create" "u1") w
    = AppwriteRealtime.Returned w
  ∧ AppwriteRealtime.listen summariesListener counting
      (storeEvent "databases.*.collections.*.documents.*.create" "u1") w
    = AppwriteRealtime.Returned
        {| AppwriteRealtime.ui := 1;
           AppwriteRealtime.invoked :=
             [(AppwriteRealtime.onMessageSummaryCreated, doc)] |}
  ∧ AppwriteRealtime.listen messagesListener counting
      {| AppwriteRealtime.events := []; AppwriteRealtime.payload := Some doc |} w
    = AppwriteRealtime.Thrown "TypeError".
Proof. vm_compute. done. Qed.

(** * Further properties *)

(** ** The deduplication primitive *)

Section DeduplicateExtras.
Context {T : Type} `{Message T}.
Implicit Types (messages : list T) (seen : list (string * T)).

Lemma seen_step_keys messages seen x (i : Z) :
  (seen_step messages seen x i).*1
  = if bool_decide (id x ∈ seen.*1) then seen.*1 else seen.*1 ++ [id x].
Proof.
  unfold seen_step. destruct (Map_get seen (id x)) as [existing|] eqn:Hget.
  - assert (id x ∈ seen.*1) as Hin.
    { apply Map_get_Some in Hget. apply list_elem_of_fmap. by exists (id x, existing). }
    rewrite bool_decide_eq_true_2 by done.
    destruct (replaces messages x existing i); [by apply Map_set_keys|done].
  - apply Map_get_None in Hget. rewrite bool_decide_eq_false_2 by done.
    by rewrite Map_set_absent, fmap_app.
Qed.

Lemma forEach_seen_step_keys messages suf (i : Z) seen :
  (forEach_from (seen_step messages) suf i seen).*1
  = foldl (λ acc k, if bool_decide (k ∈ acc) then acc else acc ++ [k])
      seen.*1 (id <$> suf).
Proof.
  revert i seen. induction suf as [|x suf IH]; intros i seen; simpl; [done|].
  by rewrite IH, seen_step_keys.
Qed.

(** The kept records stand in the order in which their ids first occur in
    the input: a record that replaces an earlier one takes its place. *)
Theorem deduplicateMessages_order messages :
  id <$> deduplicateMessages messages = firstOccurrences (id <$> messages).
Proof.
  unfold deduplicateMessages, Map_values, firstOccurrences.
  rewrite (seen_inv_ids _ _ (deduplicateMessages_inv messages)).
  apply forEach_seen_step_keys.
Qed.

(** Deduplicating a second time changes nothing. *)
Theorem deduplicateMessages_idempotent messages :
  deduplicateMessages (deduplicateMessages messages) = deduplicateMessages messages.
Proof. apply deduplicateMessages_NoDup_id, deduplicateMessages_NoDup. Qed.

(** The list is returned as it is exactly when its ids are distinct. *)
Theorem deduplicateMessages_fixpoint messages :
  deduplicateMessages messages = messages ↔ NoDup (id <$> messages).
Proof.
  split.
  - intros <-. apply deduplicateMessages_NoDup.
  - apply deduplicateMessages_NoDup_id.
Qed.

(** A record whose id does not occur before it is kept at the end. *)
Lemma deduplicateMessages_snoc_fresh messages x :
  id x ∉ (id <$> messages) →
  last (deduplicateMessages (messages ++ [x])) = Some x.
Proof.
  intros Hfresh.
  assert (∀ l : list T,
            id <$> deduplicateMessages l
            = foldl (λ acc k, if bool_decide (k ∈ acc) then acc else acc ++ [k])
                [] (id <$> l)) as Hkeys.
  { intros l. unfold deduplicateMessages, Map_values.
    rewrite (seen_inv_ids _ _ (deduplicateMessages_inv l)).
    apply forEach_seen_step_keys. }
  pose proof (Hkeys (messages ++ [x])) as Hord.
  rewrite fmap_app, foldl_app in Hord. simpl in Hord.
  rewrite <-Hkeys in Hord.
  rewrite bool_decide_eq_false_2 in Hord by (by rewrite deduplicateMessages_ids).
  destruct (deduplicateMessages (messages ++ [x])) as [|y l] eqn:Hd using rev_ind.
  { by destruct (id <$> deduplicateMessages messages). }
  clear IHl. rewrite fmap_app in Hord. simpl in Hord.
  apply app_inj_tail in Hord as [_ Hy].
  rewrite last_snoc. f_equal.
  assert (y ∈ deduplicateMessages (messages ++ [x])) as Hin
    by (rewrite Hd; set_solver).
  apply deduplicateMessages_subset, elem_of_app in Hin as [Hin|Hin%list_elem_of_singleton];
    [|done].
  exfalso. apply Hfresh. rewrite <-Hy. by apply list_elem_of_fmap_2.
Qed.
End DeduplicateExtras.

(** ** The broadcast listener *)

Lemma with_content_same msg : with_content msg (content msg) = msg.
Proof. by destruct msg. Qed.

Lemma some_id_eqb (l : list UIMessage) (k : string) :
  some (λ msg, String.eqb (id msg) k) l = bool_decide (k ∈ id <$> l).
Proof.
  destruct (some _ l) eqn:Hs; symmetry.
  - apply bool_decide_eq_true. apply some_true in Hs as (m & Hm & <-%String.eqb_eq).
    by apply list_elem_of_fmap_2.
  - apply bool_decide_eq_false. intros (m & -> & Hm)%list_elem_of_fmap.
    rewrite some_false in Hs. specialize (Hs m Hm). by rewrite String.eqb_refl in Hs.
Qed.

Lemma applyBroadcast_ids (ss : StreamingState) (prev : list UIMessage) :
  id <$> ((λ msg, if String.eqb (id msg) (ss_messageId ss)
                  then with_content msg (ss_content ss) else msg) <$> prev)
  = id <$> prev.
Proof.
  rewrite <-list_fmap_compose. apply list_fmap_ext. intros i m _. simpl.
  by destruct (String.eqb _ _).
Qed.

Lemma applyBroadcast_absent (ss : StreamingState) (prev : list UIMessage) :
  ss_messageId ss ∉ (id <$> prev) →
  (λ msg, if String.eqb (id msg) (ss_messageId ss)
          then with_content msg (ss_content ss) else msg) <$> prev
  = prev.
Proof.
  intros Hn. rewrite <-(list_fmap_id prev) at 2. apply list_fmap_ext.
  intros i m Hm. destruct (String.eqb_spec (id m) (ss_messageId ss)) as [Heq|]; [|done].
  exfalso. apply Hn. rewrite <-Heq.
  apply list_elem_of_fmap_2, list_elem_of_lookup. eauto.
Qed.

Lemma applyBroadcast_distinct (ss : StreamingState) (now : Z) (prev : list UIMessage) :
  NoDup (id <$> prev) →
  applyBroadcast ss now prev
  = if bool_decide (ss_messageId ss ∈ id <$> prev)
    then (λ msg, if String.eqb (id msg) (ss_messageId ss)
                 then with_content msg (ss_content ss) else msg) <$> prev
    else prev ++ [placeholder ss now].
Proof.
  intros Hnd. unfold applyBroadcast. rewrite some_id_eqb.
  case_bool_decide as Hin; simpl.
  - apply deduplicateMessages_NoDup_id. by rewrite applyBroadcast_ids.
  - rewrite applyBroadcast_absent by done.
    apply deduplicateMessages_NoDup_id. rewrite fmap_app. simpl.
    apply NoDup_app. split; [done|]. split; [|apply NoDup_singleton].
    by intros k Hk ->%list_elem_of_singleton.
Qed.

Lemma applyBroadcast_again (ss : StreamingState) (now now' : Z) (prev : list UIMessage) :
  applyBroadcast ss now' (applyBroadcast ss now prev) = applyBroadcast ss now prev.
Proof.
  destruct (applyBroadcast_content ss now prev) as [Hocc Hc].
  set (l := applyBroadcast ss now prev) in *.
  assert (NoDup (id <$> l)) as Hnd by apply deduplicateMessages_NoDup.
  assert (ss_messageId ss ∈ id <$> l) as Hin.
  { destruct (decide (ss_messageId ss ∈ id <$> l)) as [|Hn]; [done|].
    rewrite (occurrences_notin _ _ Hn) in Hocc. done. }
  rewrite applyBroadcast_distinct by done. rewrite bool_decide_eq_true_2 by done.
  rewrite <-(list_fmap_id l) at 2. apply list_fmap_ext. intros i m Hm.
  destruct (String.eqb_spec (id m) (ss_messageId ss)) as [Heq|]; [|done].
  rewrite <-(Hc m) by (by apply list_elem_of_lookup_2 in Hm).
  apply with_content_same.
Qed.

Section BroadcastExtras.
Context (threadId : string) (userHasScrolledUp : bool) (getSessionId : string).

(** The listener changes the component exactly when the broadcast is for
    this thread, comes from another session and is still streaming. *)
Theorem handleStreamingBroadcast_changes_iff
    (broadcastThreadId messageId : string) (ss : StreamingState) (st : Component) :
  handleStreamingBroadcast threadId userHasScrolledUp getSessionId
    broadcastThreadId messageId ss st ≠ st
  ↔ broadcastThreadId = threadId
    ∧ ss_sessionId ss ≠ getSessionId
    ∧ ss_isStreaming ss = true.
Proof.
  unfold handleStreamingBroadcast.
  destruct (String.eqb_spec broadcastThreadId threadId) as [->|Hne]; simpl;
    [|split; [done|by intros [? _]]].
  destruct (String.eqb_spec (ss_sessionId ss) getSessionId) as [Heq|Hpeer]; simpl;
    [split; [done|by intros (_ & ? & _)]|].
  destruct (ss_isStreaming ss); [|split; [done|by intros (_ & _ & ?)]].
  split; [done|]. intros _ Heq.
  assert (setMessagesLog st
          = setMessagesLog st ++ [applyBroadcast ss (clock st) (messages st)]) as Hlog.
  { rewrite <-Heq at 1. by destruct userHasScrolledUp. }
  apply (f_equal length) in Hlog. rewrite length_app in Hlog. simpl in Hlog. lia.
Qed.

(** On a list with distinct ids an applied broadcast changes the content of
    the record of its message and nothing else; when the message is not
    shown it adds one assistant record, created now, at the end. *)
Theorem handleStreamingBroadcast_distinct
    (messageId : string) (ss : StreamingState) (st : Component) :
  NoDup (id <$> messages st) →
  ss_sessionId ss ≠ getSessionId → ss_isStreaming ss = true →
  messages (handleStreamingBroadcast threadId userHasScrolledUp getSessionId
              threadId messageId ss st)
  = if bool_decide (ss_messageId ss ∈ id <$> messages st)
    then (λ msg, if String.eqb (id msg) (ss_messageId ss)
                 then with_content msg (ss_content ss) else msg) <$> messages st
    else messages st ++ [placeholder ss (clock st)].
Proof.
  intros Hnd Hpeer Hs. rewrite (handleStreamingBroadcast_applied threadId) by done.
  by apply applyBroadcast_distinct.
Qed.

(** A broadcast delivered twice leaves the list as after the first
    delivery. *)
Theorem handleStreamingBroadcast_duplicate_delivery
    (messageId1 messageId2 : string) (ss : StreamingState) (st : Component) :
  let st1 := handleStreamingBroadcast threadId userHasScrolledUp getSessionId
               threadId messageId1 ss st in
  messages (handleStreamingBroadcast threadId userHasScrolledUp getSessionId
              threadId messageId2 ss st1)
  = messages st1.
Proof.
  simpl.
  destruct (decide (ss_sessionId ss = getSessionId)) as [Hself|Hpeer].
  { unfold handleStreamingBroadcast.
    by rewrite Hself, !String.eqb_refl. }
  destruct (ss_isStreaming ss) eqn:Hs.
  - rewrite !(handleStreamingBroadcast_applied threadId) by done.
    apply applyBroadcast_again.
  - unfold handleStreamingBroadcast. rewrite Hs. by destruct (_ && _).
Qed.
End BroadcastExtras.

(** ** Sorting *)

Section SortExtras.
Context {A : Type} (key : A → Z).

Lemma insert_by_Sorted x (l : list A) :
  Sorted (λ a b, (key a ≤ key b)%Z) l →
  Sorted (λ a b, (key a ≤ key b)%Z) (insert_by key x l).
Proof.
  induction 1 as [|y l Hl IH Hhd]; simpl; [by repeat constructor|].
  destruct (Z.leb_spec (key x) (key y)) as [Hle|Hlt].
  - constructor; [by constructor|]. by constructor.
  - constructor; [done|].
    destruct Hhd as [|z l' Hyz]; simpl.
    + constructor. lia.
    + destruct (key x <=? key z)%Z; constructor; [lia|done].
Qed.

Lemma sort_by_Sorted (l : list A) : Sorted (λ a b, (key a ≤ key b)%Z) (sort_by key l).
Proof.
  induction l as [|x l IH]; simpl; [constructor|]. by apply insert_by_Sorted.
Qed.
End SortExtras.

(** ** The listener of stored-message updates *)

Lemma Map_get_Map_set {V : Type} (m : list (string * V)) k v k' :
  Map_get (Map_set m k v) k' = if String.eqb k k' then Some v else Map_get m k'.
Proof.
  induction m as [|[k0 v0] m IH]; simpl.
  - by destruct (String.eqb k k').
  - destruct (String.eqb_spec k0 k) as [->|Hne]; simpl.
    + by destruct (String.eqb k k').
    + rewrite IH. destruct (String.eqb_spec k0 k') as [->|?]; [|done].
      by rewrite (proj2 (String.eqb_neq k k')).
Qed.

Lemma foldl_Map_set_get_notin (l : list UIMessage) acc k :
  k ∉ (id <$> l) →
  Map_get (foldl (λ m msg, Map_set m (id msg) msg) acc l) k = Map_get acc k.
Proof.
  revert acc. induction l as [|x l IH]; intros acc; [done|].
  rewrite fmap_cons, not_elem_of_cons. cbn [foldl]. intros [Hne Hl]. rewrite IH by done.
  rewrite Map_get_Map_set. by rewrite (proj2 (String.eqb_neq (id x) k)).
Qed.

Lemma foldl_Map_set_get (l : list UIMessage) acc d :
  NoDup (id <$> l) → d ∈ l →
  Map_get (foldl (λ m msg, Map_set m (id msg) msg) acc l) (id d) = Some d.
Proof.
  revert acc. induction l as [|x l IH]; intros acc; [by intros _ ?%elem_of_nil|].
  rewrite fmap_cons, NoDup_cons. cbn [foldl]. intros [Hx Hnd] [->|Hd]%elem_of_cons.
  - rewrite foldl_Map_set_get_notin by done.
    by rewrite Map_get_Map_set, String.eqb_refl.
  - by apply IH.
Qed.

Lemma idMap_get_distinct (l : list UIMessage) d :
  NoDup (id <$> l) → d ∈ l → Map_get (idMap l) (id d) = Some d.
Proof. apply foldl_Map_set_get. Qed.

Lemma idMap_get_notin (l : list UIMessage) k :
  k ∉ (id <$> l) → Map_get (idMap l) k = None.
Proof. intros Hn. unfold idMap. by rewrite foldl_Map_set_get_notin. Qed.

Lemma merged_fmap_id replace st uiMessages :
  id <$> merged replace st uiMessages
  = (id <$> messages st) ++ (id <$> filter (λ dbMsg, isNew st dbMsg = true) uiMessages).
Proof.
  unfold merged. rewrite fmap_app. f_equal. destruct replace; [|done].
  rewrite <-list_fmap_compose. apply list_fmap_ext. intros i u _. unfold compose.
  destruct (Map_get (idMap uiMessages) (id u)) as [dbMsg|] eqn:Hget; simpl; [|done].
  by apply idMap_get in Hget as [? ?].
Qed.

Lemma merged_NoDup replace st uiMessages :
  NoDup (id <$> messages st) → NoDup (id <$> uiMessages) →
  NoDup (id <$> merged replace st uiMessages).
Proof.
  intros Hst Hui. rewrite merged_fmap_id. apply NoDup_app. split; [done|]. split.
  - intros k Hk (d & -> & Hd)%list_elem_of_fmap.
    apply list_elem_of_filter in Hd as [[Hn _]%isNew_true _]. done.
  - apply (NoDup_fmap_2_strong id); [|by apply NoDup_filter, (NoDup_fmap_1 id)].
    intros x y [_ Hx]%list_elem_of_filter [_ Hy]%list_elem_of_filter Hxy.
    apply list_elem_of_lookup in Hx as [i Hi]. apply list_elem_of_lookup in Hy as [j Hj].
    assert (i = j).
    { eapply NoDup_lookup; [exact Hui|..]; rewrite list_lookup_fmap.
      - by rewrite Hi.
      - rewrite Hj. simpl. f_equal. symmetry. exact Hxy. }
    congruence.
Qed.

Lemma toUIMessage_ids (updatedMessages : list DBMessage) :
  id <$> (toUIMessage <$> updatedMessages) = db_id <$> updatedMessages.
Proof. by rewrite <-list_fmap_compose. Qed.

Section UpdateExtras.
Context (threadId : string) (userHasScrolledUp : bool).

(** The ids shown after a notification are the ids shown before together
    with the incoming ids of this thread that are not tracked: the listener
    never removes an id, not even one the store no longer has, and never
    adds a tracked one. *)
Theorem handleMessagesUpdated_ids
    (updatedThreadId : string) (updatedMessages : list DBMessage)
    (st : Component) (k : string) :
  k ∈ id <$> messages (handleMessagesUpdated threadId userHasScrolledUp
                         updatedThreadId updatedMessages st)
  ↔ k ∈ id <$> messages st
    ∨ (updatedThreadId = threadId
       ∧ k ∈ db_id <$> updatedMessages
       ∧ k ∉ recentlyAppendedMessages st).
Proof.
  pose proof (handleMessagesUpdated_cases threadId userHasScrolledUp
                updatedThreadId updatedMessages st) as Hc. simpl in Hc.
  set (uiMessages := toUIMessage <$> updatedMessages) in *.
  assert (k ∈ id <$> filter (λ dbMsg, isNew st dbMsg = true) uiMessages
          ↔ (k ∉ id <$> messages st) ∧ k ∈ db_id <$> updatedMessages
            ∧ k ∉ recentlyAppendedMessages st) as Hnew.
  { rewrite <-toUIMessage_ids. fold uiMessages. split.
    - intros (d & -> & [[? ?]%isNew_true Hd]%list_elem_of_filter)%list_elem_of_fmap.
      split; [done|]. split; [by apply list_elem_of_fmap_2|done].
    - intros (Hn & (d & -> & Hd)%list_elem_of_fmap & Ht).
      apply list_elem_of_fmap_2, list_elem_of_filter. split; [|done].
      by apply isNew_true. }
  destruct (String.eqb_spec updatedThreadId threadId) as [->|Hne]; simpl in Hc.
  - destruct (_ || _ || _) eqn:Hchg.
    + destruct Hc as [-> _]. rewrite deduplicateMessages_ids.
      rewrite (fmap_Permutation id _ _ (sort_by_Permutation time _)).
      rewrite merged_fmap_id, elem_of_app, Hnew.
      destruct (decide (k ∈ id <$> messages st)); tauto.
    + rewrite Hc. split; [by left|]. intros [?|(_ & Hin & Ht)]; [done|].
      destruct (decide (k ∈ id <$> messages st)) as [|Hn]; [done|].
      exfalso. apply orb_false_iff in Hchg as [[Hnw _]%orb_false_iff _].
      apply not_true_iff_false in Hnw. apply Hnw, hasNewMessages_true.
      rewrite <-toUIMessage_ids in Hin. fold uiMessages in Hin.
      apply list_elem_of_fmap in Hin as (d & -> & Hd). by exists d.
  - rewrite Hc. split; [by left|]. by intros [?|[? _]].
Qed.

(** When the shown and the incoming messages have distinct ids, the list
    that a notification installs is in ascending order of creation time,
    again with distinct ids. *)
Theorem handleMessagesUpdated_sorted
    (updatedThreadId : string) (updatedMessages : list DBMessage) (st : Component) :
  NoDup (id <$> messages st) → NoDup (db_id <$> updatedMessages) →
  let st' := handleMessagesUpdated threadId userHasScrolledUp
               updatedThreadId updatedMessages st in
  setMessagesLog st' ≠ setMessagesLog st →
  Sorted (λ a b, (time a ≤ time b)%Z) (messages st')
  ∧ NoDup (id <$> messages st').
Proof.
  intros Hst Hdb st' Hlog.
  pose proof (handleMessagesUpdated_cases threadId userHasScrolledUp
                updatedThreadId updatedMessages st) as Hc. simpl in Hc. fold st' in Hc.
  destruct (_ && _); [|by rewrite Hc in Hlog].
  destruct Hc as [-> _]. split; [|apply deduplicateMessages_NoDup].
  rewrite deduplicateMessages_NoDup_id; [apply sort_by_Sorted|].
  rewrite (fmap_Permutation id _ _ (sort_by_Permutation time _)).
  apply merged_NoDup; [done|]. by rewrite toUIMessage_ids.
Qed.

(** With distinct ids on both sides: as soon as one stored record differs
    from the shown record of its id, every shown message that has a stored
    copy is replaced by that copy, whatever the lengths of the two contents,
    and the shown messages without a stored copy stay; when no stored
    record differs, every shown record stays as it is. *)
Theorem handleMessagesUpdated_stored_copy_wins
    (updatedMessages : list DBMessage) (st : Component) :
  NoDup (id <$> messages st) → NoDup (db_id <$> updatedMessages) →
  let uiMessages := toUIMessage <$> updatedMessages in
  let st' := handleMessagesUpdated threadId userHasScrolledUp
               threadId updatedMessages st in
  (hasUpdatedMessages st uiMessages = true →
     (∀ dbMsg, dbMsg ∈ uiMessages → id dbMsg ∈ id <$> messages st →
               dbMsg ∈ messages st')
     ∧ (∀ m, m ∈ messages st → (id m ∉ id <$> uiMessages) → m ∈ messages st'))
  ∧ (hasUpdatedMessages st uiMessages = false →
     ∀ m, m ∈ messages st → m ∈ messages st').
Proof.
  intros Hst Hdb uiMessages st'.
  pose proof (handleMessagesUpdated_cases threadId userHasScrolledUp
                threadId updatedMessages st) as Hc. simpl in Hc.
  fold st' uiMessages in Hc. rewrite String.eqb_refl in Hc. simpl in Hc.
  assert (NoDup (id <$> uiMessages)) as Hui by (by unfold uiMessages; rewrite toUIMessage_ids).
  assert (∀ b, deduplicateMessages (sort_by time (merged b st uiMessages))
               = sort_by time (merged b st uiMessages)) as Hd.
  { intros b. apply deduplicateMessages_NoDup_id.
    rewrite (fmap_Permutation id _ _ (sort_by_Permutation time _)).
    by apply merged_NoDup. }
  split.
  - intros Hupd. rewrite Hupd, orb_true_r in Hc. destruct Hc as [Hmsg _].
    rewrite Hd in Hmsg. rewrite Hmsg. unfold merged.
    split.
    + intros dbMsg Hin (u & Hid & Hu)%list_elem_of_fmap.
      apply elem_of_sort_by, elem_of_app. left.
      apply list_elem_of_fmap. exists u. split; [|done].
      by rewrite <-Hid, idMap_get_distinct.
    + intros m Hm Hn. apply elem_of_sort_by, elem_of_app. left.
      apply list_elem_of_fmap. exists m. split; [|done].
      by rewrite idMap_get_notin.
  - intros Hupd m Hm. rewrite Hupd, orb_false_r in Hc.
    destruct (_ || _); [|by rewrite Hc].
    destruct Hc as [Hmsg _]. rewrite Hd in Hmsg. rewrite Hmsg.
    apply elem_of_sort_by. unfold merged. apply elem_of_app. by left.
Qed.

End UpdateExtras.

(** ** Tracking *)

(** Tracking an id again does not extend its window: the timer of the first
    call removes the id 2000 ms after the first call, however recently the
    id was tracked again. *)
Theorem trackAppendedMessage_window_not_extended
    (st : Component) (x : string) (d : Z) :
  (0 ≤ d < 2000)%Z →
  x ∉ recentlyAppendedMessages
        (advance (2000 - d)
           (trackAppendedMessage x (advance d (trackAppendedMessage x st)))).
Proof.
  intros Hd Hin. apply advance_tracked in Hin as [_ Hall].
  specialize (Hall (clock st + 2000)%Z).
  assert (clock (advance d (trackAppendedMessage x st)) = (clock st + d)%Z) as Hclock.
  { unfold advance. generalize ((sort_by fst
      (filter (λ t, (t.1 ≤ clock (trackAppendedMessage x st) + d)%Z)
              (timers (trackAppendedMessage x st)))).*2).
    intros acts.
    assert (∀ s, clock (foldl fire s acts) = clock s) as Hf.
    { induction acts as [|a acts IH]; intros s; simpl; [done|].
      rewrite IH. by destruct a. }
    by rewrite Hf. }
  assert (((clock st + 2000)%Z, StopTracking x)
          ∈ timers (advance d (trackAppendedMessage x st))) as Hpending.
  { unfold advance. generalize ((sort_by fst
      (filter (λ t, (t.1 ≤ clock (trackAppendedMessage x st) + d)%Z)
              (timers (trackAppendedMessage x st)))).*2).
    intros acts.
    assert (∀ s, timers (foldl fire s acts) = timers s) as Hf.
    { induction acts as [|a acts IH]; intros s; simpl; [done|].
      rewrite IH. by destruct a. }
    rewrite Hf. simpl. apply list_elem_of_filter. split; [simpl; lia|].
    apply elem_of_app. right. left. }
  simpl in Hall. rewrite Hclock in Hall.
  assert (clock st + d + (2000 - d) < clock st + 2000)%Z; [|lia].
  apply Hall. apply elem_of_app. by left.
Qed.

(** ** The realtime service *)

Section RealtimeExtras.
Import AppwriteRealtime.
Context {U : Type}.
Context `{AppwriteDB}.
Implicit Types (s : Service (U:=U)) (w : World (U:=U)) (c : Connection (U:=U)).

Lemma bySwitch_returns (cbs : RealtimeCallbacks (U:=U)) created updated deleted
    (response : RealtimeResponseEvent) (doc : Document) w :
  bySwitch cbs created updated deleted response doc w = Returned w
  ∨ ∃ name,
      (head (events response) = Some "databases.*.collections.*.documents.*.create"
         ∧ name = created
       ∨ head (events response) = Some "databases.*.collections.*.documents.*.update"
         ∧ name = updated
       ∨ head (events response) = Some "databases.*.collections.*.documents.*.delete"
         ∧ name = deleted)
      ∧ bySwitch cbs created updated deleted response doc w
        = Returned (handle cbs name doc w).
Proof.
  unfold bySwitch. destruct (head (events response)) as [e|]; [|by left].
  destruct (decide (e = "databases.*.collections.*.documents.*.create")) as [->|H1].
  { right. exists created. split; [by left|done]. }
  destruct (decide (e = "databases.*.collections.*.documents.*.update")) as [->|H2].
  { right. exists updated. split; [right; by left|done]. }
  destruct (decide (e = "databases.*.collections.*.documents.*.delete")) as [->|H3].
  { right. exists deleted. split; [right; by right|done]. }
  left. repeat (case_match; try done); by simplify_eq.
Qed.

Lemma byIncludes_returns (cbs : RealtimeCallbacks (U:=U)) created updated deleted
    (response : RealtimeResponseEvent) (doc : Document) w :
  (events response = []
   ∧ byIncludes cbs created updated deleted response doc w = Thrown "TypeError")
  ∨ byIncludes cbs created updated deleted response doc w = Returned w
  ∨ ∃ name, (name = created ∨ name = updated ∨ name = deleted)
      ∧ byIncludes cbs created updated deleted response doc w
        = Returned (handle cbs name doc w).
Proof.
  unfold byIncludes. destruct (events response) as [|eventType rest]; [by left|].
  right. simpl.
  destruct (includes eventType ".create"); [right; exists created; auto|].
  destruct (includes eventType ".update"); [right; exists updated; auto|].
  destruct (includes eventType ".delete"); [right; exists deleted; auto|].
  by left.
Qed.


(** A listener that returns has invoked at most one callback; the callback
    is registered, belongs to the collection of the listener, and received
    the payload of the event, a document of the scoped user. *)
Theorem listen_invokes_own_callback (l : Listener) (cbs : RealtimeCallbacks (U:=U))
    (response : RealtimeResponseEvent) w w' :
  listen l cbs response w = Returned w' →
  w' = w
  ∨ ∃ name f doc,
      payload response = Some doc ∧ userId doc = scope l
      ∧ collection name = kind l ∧ cbs name = Some f
      ∧ w' = {| ui := f doc (ui w); invoked := invoked w ++ [(name, doc)] |}.
Proof.
  unfold listen. destruct (payload response) as [doc|]; [|intros [= <-]; by left].
  destruct (String.eqb_spec (userId doc) (scope l)) as [Heq|Hne]; simpl;
    [|intros [= <-]; by left].
  assert (∀ name, collection name = kind l → w' = handle cbs name doc w →
            w' = w ∨ ∃ name f doc0, Some doc = Some doc0 ∧ userId doc0 = scope l
              ∧ collection name = kind l ∧ cbs name = Some f
              ∧ w' = {| ui := f doc0 (ui w); invoked := invoked w ++ [(name, doc0)] |})
    as Hh.
  { intros name Hcol ->. unfold handle. destruct (cbs name) as [f|] eqn:Hf; [|by left].
    right. by exists name, f, doc. }
  destruct (kind l) eqn:Hk.
  - destruct (byIncludes_returns cbs onThreadCreated onThreadUpdated onThreadDeleted
                response doc w) as [[_ ->]|[->|(name & Hn & ->)]];
      [done|intros [= <-]; by left|].
    intros [= <-]. apply (Hh name); [|done]. by destruct Hn as [->|[->| ->]].
  - destruct (byIncludes_returns cbs onMessageCreated onMessageUpdated onMessageDeleted
                response doc w) as [[_ ->]|[->|(name & Hn & ->)]];
      [done|intros [= <-]; by left|].
    intros [= <-]. apply (Hh name); [|done]. by destruct Hn as [->|[->| ->]].
  - destruct (bySwitch_returns cbs onMessageSummaryCreated onMessageSummaryUpdated
                onMessageSummaryDeleted response doc w) as [->|(name & Hn & ->)];
      [intros [= <-]; by left|].
    intros [= <-]. apply (Hh name); [|done].
    by destruct Hn as [[_ ->]|[[_ ->]|[_ ->]]].
  - destruct (byIncludes_returns cbs onProjectCreated onProjectUpdated onProjectDeleted
                response doc w) as [[_ ->]|[->|(name & Hn & ->)]];
      [done|intros [= <-]; by left|].
    intros [= <-]. apply (Hh name); [|done]. by destruct Hn as [->|[->| ->]].
Qed.

(** The listener of message summaries reacts only when the first event name
    is, letter for letter, one of its three patterns. *)
Theorem summaries_listener_needs_literal (l : Listener)
    (cbs : RealtimeCallbacks (U:=U)) (response : RealtimeResponseEvent) w w' :
  kind l = MessageSummaries →
  listen l cbs response w = Returned w' → w' ≠ w →
  head (events response) = Some "databases.*.collections.*.documents.*.create"
  ∨ head (events response) = Some "databases.*.collections.*.documents.*.update"
  ∨ head (events response) = Some "databases.*.collections.*.documents.*.delete".
Proof.
  intros Hk. unfold listen. rewrite Hk.
  destruct (payload response) as [doc|]; [|by intros [= <-]].
  destruct (negb _); [by intros [= <-]|].
  destruct (bySwitch_returns cbs onMessageSummaryCreated onMessageSummaryUpdated
              onMessageSummaryDeleted response doc w) as [->|(name & Hn & ->)];
    [by intros [= <-]|].
  intros _ _. destruct Hn as [[? _]|[[? _]|[? _]]]; auto.
Qed.
End RealtimeExtras.

Section ConnectionExtras.
Import AppwriteRealtime.
Context {U : Type}.
Context `{AppwriteDB}.
Implicit Types (s : Service (U:=U)) (w : World (U:=U)) (c : Connection (U:=U)).

Ltac unfold_subscribe :=
  unfold subscribeToThreads, subscribeToMessages, subscribeToMessageSummaries,
    subscribeToProjects, subscribe, register.

Lemma subscribeToThreads_setCallbacks new u s :
  subscribeToThreads u (setCallbacks new s) = setCallbacks new (subscribeToThreads u s).
Proof. unfold_subscribe. simpl. by destruct (subscriptions s !! "threads"). Qed.
Lemma subscribeToMessages_setCallbacks new u s :
  subscribeToMessages u (setCallbacks new s) = setCallbacks new (subscribeToMessages u s).
Proof. unfold_subscribe. simpl. by destruct (subscriptions s !! "messages"). Qed.
Lemma subscribeToMessageSummaries_setCallbacks new u s :
  subscribeToMessageSummaries u (setCallbacks new s)
  = setCallbacks new (subscribeToMessageSummaries u s).
Proof. unfold_subscribe. simpl. by destruct (subscriptions s !! "message_summaries"). Qed.
Lemma subscribeToProjects_setCallbacks new u s :
  subscribeToProjects u (setCallbacks new s) = setCallbacks new (subscribeToProjects u s).
Proof. unfold_subscribe. simpl. by destruct (subscriptions s !! "projects"). Qed.

(** Callbacks can be set before or after subscribing, with the same result;
    two calls of [setCallbacks] amount to one call with the later object
    spread over the earlier, so that a later field wins, also one holding
    [undefined], and the fields the later object lacks survive. *)
Theorem setCallbacks_composes new1 new2 (u : string) s :
  subscribeToAll u (setCallbacks new1 s) = setCallbacks new1 (subscribeToAll u s)
  ∧ ∀ name,
      callbacks (setCallbacks new2 (setCallbacks new1 s)) name
      = callbacks (setCallbacks (λ n, match new2 n with
                                      | Some field => Some field
                                      | None => new1 n
                                      end) s) name.
Proof.
  split.
  - unfold subscribeToAll.
    by rewrite subscribeToThreads_setCallbacks, subscribeToMessages_setCallbacks,
      subscribeToMessageSummaries_setCallbacks, subscribeToProjects_setCallbacks.
  - intros name. simpl. by destruct (new2 name).
Qed.

(** One subscription method, run on a connection whose registry tracks the
    open subscriptions, leaves a registry that does. *)
Ltac tracks_step c key :=
  intros (Hreg & Hopen & Hclosed); unfold on_service; unfold_subscribe;
  destruct (subscriptions (service c) !! key) eqn:Hkey; simpl; [done|];
  split; [|split]; simpl;
  [ intros k h; destruct (decide (key = k)) as [<-|Hne];
    [ rewrite lookup_insert_eq; intros [= <-]; rewrite length_app; simpl;
      split; [lia|]; intros Hin%Hclosed; lia
    | rewrite lookup_insert_ne by done; intros Hk%Hreg;
      rewrite length_app; simpl; split; [lia|tauto] ]
  | intros h; rewrite length_app; simpl; intros Hlt;
    destruct (decide (h = length (client (service c)))) as [->|Hne];
    [ right; exists key; by rewrite lookup_insert_eq
    | destruct (Hopen h) as [?|[k Hk]]; [lia|by left|];
      right; exists k; rewrite lookup_insert_ne; [done|]; intros <-; congruence ]
  | intros h Hin%Hclosed; rewrite length_app; simpl; lia ].

Lemma subscribeToThreads_tracks u c :
  registry_tracks_open c → registry_tracks_open (on_service (subscribeToThreads u) c).
Proof. tracks_step c "threads". Qed.
Lemma subscribeToMessages_tracks u c :
  registry_tracks_open c → registry_tracks_open (on_service (subscribeToMessages u) c).
Proof. tracks_step c "messages". Qed.
Lemma subscribeToMessageSummaries_tracks u c :
  registry_tracks_open c →
  registry_tracks_open (on_service (subscribeToMessageSummaries u) c).
Proof. tracks_step c "message_summaries". Qed.
Lemma subscribeToProjects_tracks u c :
  registry_tracks_open c → registry_tracks_open (on_service (subscribeToProjects u) c).
Proof. tracks_step c "projects". Qed.

Lemma initial_tracks : registry_tracks_open {| service := initial (U:=U); closed := ∅ |}.
Proof.
  split; [|split]; simpl.
  - intros k h. by rewrite lookup_empty.
  - intros h ?. lia.
  - intros h. by rewrite elem_of_empty.
Qed.

Lemma subscribeToAll_tracks u c :
  registry_tracks_open c → registry_tracks_open (on_service (subscribeToAll u) c).
Proof.
  intros Hc.
  apply (subscribeToProjects_tracks u
           (on_service (λ s, subscribeToMessageSummaries u
                               (subscribeToMessages u (subscribeToThreads u s))) c)).
  apply (subscribeToMessageSummaries_tracks u
           (on_service (λ s, subscribeToMessages u (subscribeToThreads u s)) c)).
  apply (subscribeToMessages_tracks u (on_service (subscribeToThreads u) c)).
  by apply subscribeToThreads_tracks.
Qed.

Lemma unsubscribeFromAll_tracks c :
  registry_tracks_open c → registry_tracks_open (unsubscribeFromAll c).
Proof.
  intros (Hreg & Hopen & Hclosed). split; [|split]; simpl.
  - intros k h. by rewrite lookup_empty.
  - intros h Hlt. left. apply elem_of_union.
    destruct (Hopen h Hlt) as [?|[k Hk]]; [by left|right].
    apply elem_of_map_img. by exists k.
  - intros h [Hin|Hin]%elem_of_union; [by apply Hclosed|].
    apply elem_of_map_img in Hin as [k Hk]. by apply Hreg in Hk as [? _].
Qed.

(** The registry tracks the open subscriptions on the freshly loaded
    service, and [subscribeToAll], [unsubscribeFromAll] and [setCallbacks]
    keep it so: no subscription stays open without being registered, and no
    registered handle is closed.  After [unsubscribeFromAll] the registry is
    empty and every subscription of the client is closed, while the
    callbacks are still registered. *)
Theorem registry_tracks_open_invariant (u : string) new c :
  registry_tracks_open {| service := initial (U:=U); closed := ∅ |}
  ∧ (registry_tracks_open c →
     registry_tracks_open (on_service (subscribeToAll u) c)
     ∧ registry_tracks_open (unsubscribeFromAll c)
     ∧ registry_tracks_open (on_service (setCallbacks new) c)
     ∧ subscriptions (service (unsubscribeFromAll c)) = ∅
     ∧ callbacks (service (unsubscribeFromAll c)) = callbacks (service c)
     ∧ ∀ h, h < length (client (service c)) → h ∈ closed (unsubscribeFromAll c)).
Proof.
  split; [apply initial_tracks|]. intros Hc.
  split; [by apply subscribeToAll_tracks|].
  split; [by apply unsubscribeFromAll_tracks|].
  split; [done|]. split; [done|]. split; [done|].
  intros h Hlt. destruct Hc as (_ & Hopen & _). simpl. apply elem_of_union.
  destruct (Hopen h Hlt) as [?|[k Hk]]; [by left|right].
  apply elem_of_map_img. by exists k.
Qed.

Lemma subscribeToAll_empty_registry (u : string) (cb : RealtimeCallbacks (U:=U))
    (cl : list (string * Listener)) :
  subscribeToAll u {| subscriptions := ∅; callbacks := cb; client := cl |}
  = {| subscriptions :=
         <["projects" := length cl + 3]> (<["message_summaries" := length cl + 2]>
           (<["messages" := length cl + 1]> (<["threads" := length cl]> ∅)));
       callbacks := cb;
       client :=
         cl ++ [ (channel THREADS_COLLECTION_ID, {| kind := Threads; scope := u |});
                 (channel MESSAGES_COLLECTION_ID, {| kind := Messages; scope := u |});
                 (channel MESSAGE_SUMMARIES_COLLECTION_ID,
                  {| kind := MessageSummaries; scope := u |});
                 (channel PROJECTS_COLLECTION_ID, {| kind := Projects; scope := u |}) ] |}.
Proof.
  unfold subscribeToAll. unfold_subscribe. simpl.
  rewrite lookup_empty. simpl.
  rewrite lookup_insert_ne by done. rewrite lookup_empty. simpl.
  rewrite !lookup_insert_ne by done. rewrite lookup_empty. simpl.
  rewrite !lookup_insert_ne by done. rewrite lookup_empty. simpl.
  rewrite !length_app. simpl. rewrite <-!app_assoc. simpl.
  replace (length cl + 1 + 1 + 1) with (length cl + 3) by lia.
  by replace (length cl + 1 + 1) with (length cl + 2) by lia.
Qed.

(** After [unsubscribeFromAll] and a new [subscribeToAll], the open
    subscriptions are the four new ones: every subscription of the client
    that is not closed was opened by that call and filters for its user. *)
Theorem resubscribe_rescopes (u : string) c (h : nat) (ch : string) (l : Listener) :
  registry_tracks_open c →
  let c' := on_service (subscribeToAll u) (unsubscribeFromAll c) in
  client (service c') !! h = Some (ch, l) → h ∉ closed c' →
  length (client (service c)) ≤ h < length (client (service c)) + 4
  ∧ scope l = u
  ∧ subscriptions (service c') !! key (kind l) = Some h.
Proof.
  intros (Hreg & Hopen & Hclosed). simpl.
  rewrite subscribeToAll_empty_registry. simpl.
  intros Hh Hn.
  assert (length (client (service c)) ≤ h) as Hge.
  { destruct (decide (length (client (service c)) ≤ h)) as [|Hlt]; [done|].
    exfalso. apply Hn, elem_of_union.
    destruct (Hopen h) as [?|[k Hk]]; [lia|by left|right].
    apply elem_of_map_img. by exists k. }
  rewrite lookup_app_r in Hh by done.
  remember (h - length (client (service c))) as i eqn:Hi.
  destruct i as [|[|[|[|i]]]]; simpl in Hh; [..|done]; simplify_eq; simpl;
    (split; [lia|]); (split; [done|]).
  - rewrite !lookup_insert_ne by done. rewrite lookup_insert_eq. f_equal. lia.
  - rewrite !lookup_insert_ne by done. rewrite lookup_insert_eq. f_equal. lia.
  - rewrite !lookup_insert_ne by done. rewrite lookup_insert_eq. f_equal. lia.
  - rewrite lookup_insert_eq. f_equal. lia.
Qed.

Lemma listen_foreign (l : Listener) (cbs : RealtimeCallbacks (U:=U))
    (response : RealtimeResponseEvent) w :
  userId <$> payload response ≠ Some (scope l) →
  listen l cbs response w = Returned w.
Proof.
  unfold listen. destruct (payload response) as [doc|]; simpl; [|done].
  destruct (String.eqb_spec (userId doc) (scope l)); [congruence|done].
Qed.

(** Without [unsubscribeFromAll] in between, [subscribeToAll] for a second
    user leaves the listeners of the first in place: every subscription of
    the client drops the events of the second user. *)
Theorem subscribeToAll_keeps_first_scope (u1 u2 : string)
    (sub : string * Listener) (cbs : RealtimeCallbacks (U:=U))
    (response : RealtimeResponseEvent) w :
  u1 ≠ u2 →
  sub ∈ client (subscribeToAll u2 (subscribeToAll u1 (initial (U:=U)))) →
  userId <$> payload response = Some u2 →
  listen sub.2 cbs response w = Returned w.
Proof.
  intros Hne Hsub Hu. rewrite subscribeToAll_idempotent, subscribeToAll_initial in Hsub.
  apply listen_foreign. rewrite Hu. simpl in Hsub.
  repeat (apply elem_of_cons in Hsub as [->|Hsub]; [simpl; congruence|]).
  by apply elem_of_nil in Hsub.
Qed.
End ConnectionExtras.

(** ** Retrying a message *)

Lemma findIndex_from_found {A : Type} (p : A → bool) (l : list A) (s : Z) :
  (∀ x, x ∈ l → p x = false) ∧ findIndex_from p l s = (-1)%Z
  ∨ ∃ (n : nat) (x : A),
      findIndex_from p l s = (s + Z.of_nat n)%Z
      ∧ l !! n = Some x ∧ p x = true
      ∧ ∀ y, y ∈ take n l → p y = false.
Proof.
  revert s. induction l as [|a l IH]; intros s; simpl.
  - left. split; [by intros x ?%elem_of_nil|done].
  - destruct (p a) eqn:Ha.
    + right. exists 0, a. split; [lia|]. split; [done|]. split; [done|].
      by intros y ?%elem_of_nil.
    + destruct (IH (s + 1)%Z) as [[Hall ->]|(n & x & -> & Hx & Hp & Hbefore)].
      * left. split; [|done]. by intros x [->|?]%elem_of_cons; [|apply Hall].
      * right. exists (S n), x. split; [lia|]. split; [done|]. split; [done|].
        by intros y [->|?]%elem_of_cons; [|apply Hbefore].
Qed.

(** Retrying a message that is not a user message leaves no record of its
    id in the list. *)
Theorem retryUpdater_drops_retried (message : UIMessage) (messages : list UIMessage) :
  msg_role message ≠ user →
  id message ∉ (id <$> retryUpdater message messages).
Proof.
  intros Hrole. unfold retryUpdater, findIndex.
  assert (∀ l : list UIMessage,
            (∀ y, y ∈ l → String.eqb (id y) (id message) = false) →
            id message ∉ (id <$> deduplicateMessages l)) as Hnone.
  { intros l Hl. rewrite deduplicateMessages_ids.
    intros (y & Hy & Hin)%list_elem_of_fmap. apply Hl in Hin.
    by rewrite Hy, String.eqb_refl in Hin. }
  destruct (findIndex_from_found (λ m, String.eqb (id m) (id message)) messages 0)
    as [[Hall ->]|(n & x & -> & Hx & Hp & Hbefore)].
  - simpl. destruct (msg_role message); by apply Hnone.
  - replace (negb (0 + Z.of_nat n =? -1)%Z) with true
      by (symmetry; apply negb_true_iff, Z.eqb_neq; lia).
    replace (Z.to_nat (0 + Z.of_nat n)) with n by lia.
    destruct (msg_role message); [by apply Hnone|done|by apply Hnone..].
Qed.

(** Retrying a user message that is shown keeps the first record of its id
    as the last record of the list. *)
Theorem retryUpdater_keeps_user_message_last
    (message : UIMessage) (messages : list UIMessage) :
  msg_role message = user → id message ∈ id <$> messages →
  ∃ m, find (λ m, String.eqb (id m) (id message)) messages = Some m
       ∧ last (retryUpdater message messages) = Some m.
Proof.
  intros Hrole Hin. unfold retryUpdater, findIndex. rewrite Hrole.
  destruct (findIndex_from_found (λ m, String.eqb (id m) (id message)) messages 0)
    as [[Hall _]|(n & x & -> & Hx & Hp & Hbefore)].
  { apply list_elem_of_fmap in Hin as (y & Hy & Hin). apply Hall in Hin.
    by rewrite Hy, String.eqb_refl in Hin. }
  replace (negb (0 + Z.of_nat n =? -1)%Z) with true
    by (symmetry; apply negb_true_iff, Z.eqb_neq; lia).
  replace (Z.to_nat (0 + Z.of_nat n + 1)) with (S n) by lia.
  exists x. split.
  - clear Hin Hrole. revert n Hx Hbefore.
    induction messages as [|a l IH]; intros n Hx Hbefore; [done|]. cbn [find].
    destruct n as [|n]; simpl in Hx.
    + simplify_eq. by rewrite Hp.
    + rewrite (Hbefore a) by left. apply (IH n); [done|].
      intros y Hy. apply Hbefore. by right.
  - rewrite (take_S_r _ _ _ Hx). apply deduplicateMessages_snoc_fresh.
    intros (y & Hy & Hyin)%list_elem_of_fmap. apply Hbefore in Hyin.
    apply String.eqb_eq in Hp. rewrite <-Hy, Hp, String.eqb_refl in Hyin. done.
Qed.

(** ** Announcing a web search *)

(** The callback always raises the flag for the next response.  In chat
    mode it changes nothing else; in a search mode it turns the loader on
    and sets a query that is never empty: the query it was given when that
    is not empty. *)
Theorem handleWebSearchMessage_query (selectedSearchType : string)
    (messages : list UIMessage) (messageId : string) (searchQuery : option string)
    (st : SearchState) :
  let st' := handleWebSearchMessage selectedSearchType messages messageId
               searchQuery st in
  nextResponseNeedsWebSearch st' = true
  ∧ (selectedSearchType = "chat" →
     isWebSearching st' = isWebSearching st ∧ webSearchQuery st' = webSearchQuery st)
  ∧ (selectedSearchType ≠ "chat" →
     isWebSearching st' = true
     ∧ webSearchQuery st' ≠ ""
     ∧ ∀ q, searchQuery = Some q → q ≠ "" → webSearchQuery st' = q).
Proof.
  simpl. unfold handleWebSearchMessage.
  assert (∀ o : option string, truthy o = true → default "" o ≠ "") as Ht.
  { intros [q|]; simpl; [|done]. by intros ?%negb_true_iff%String.eqb_neq. }
  destruct (String.eqb_spec selectedSearchType "chat") as [->|Hne]; simpl.
  - split; [done|]. split; [done|]. by intros [].
  - split; [done|]. split; [done|]. intros _. split; [done|]. split.
    + destruct (truthy searchQuery) eqn:Hq; [by apply Ht|].
      match goal with
      | |- context [truthy ?o] => destruct (truthy o) eqn:Hl; [by apply Ht|done]
      end.
    + intros q -> Hq. simpl. by rewrite (proj2 (String.eqb_neq q "") Hq).
Qed.

(** ** Deduplication and maps that keep id and content *)

Lemma findIndex_from_ext {A : Type} (p q : A → bool) (l : list A) (s : Z) :
  (∀ x, p x = q x) → findIndex_from p l s = findIndex_from q l s.
Proof.
  intros Hpq. revert s. induction l as [|x l IH]; intros s; simpl; [done|].
  by rewrite Hpq, IH.
Qed.

Lemma findIndex_from_fmap {A B : Type} (f : A → B) (p : B → bool) (l : list A) (s : Z) :
  findIndex_from p (f <$> l) s = findIndex_from (λ x, p (f x)) l s.
Proof.
  revert s. induction l as [|x l IH]; intros s; simpl; [done|]. by rewrite IH.
Qed.

Section Natural.
Context {T T' : Type} `{Message T} `{Message T'} (f : T → T').
Context (f_id : ∀ x, id (f x) = id x) (f_content : ∀ x, content (f x) = content x).

Lemma Map_get_second (seen : list (string * T)) k :
  Map_get ((λ kv, (kv.1, f kv.2)) <$> seen) k = f <$> Map_get seen k.
Proof.
  induction seen as [|[k0 v0] seen IH]; simpl; [done|].
  by destruct (String.eqb k0 k).
Qed.

Lemma Map_set_second (seen : list (string * T)) k v :
  Map_set ((λ kv, (kv.1, f kv.2)) <$> seen) k (f v)
  = (λ kv, (kv.1, f kv.2)) <$> Map_set seen k v.
Proof.
  induction seen as [|[k0 v0] seen IH]; simpl; [done|].
  destruct (String.eqb k0 k); [done|]. csimpl. by rewrite IH.
Qed.

Lemma replaces_fmap messages x existing (i : Z) :
  replaces (f <$> messages) (f x) (f existing) i = replaces messages x existing i.
Proof.
  unfold replaces, findIndex. rewrite !f_content, findIndex_from_fmap.
  rewrite (findIndex_from_ext _ (λ m, String.eqb (id m) (id existing))); [done|].
  intros m. by rewrite !f_id.
Qed.

Lemma seen_step_fmap messages seen x (i : Z) :
  seen_step (f <$> messages) ((λ kv, (kv.1, f kv.2)) <$> seen) (f x) i
  = (λ kv, (kv.1, f kv.2)) <$> seen_step messages seen x i.
Proof.
  unfold seen_step. rewrite f_id, Map_get_second.
  destruct (Map_get seen (id x)) as [existing|]; simpl.
  - rewrite replaces_fmap. destruct (replaces messages x existing i); [|done].
    apply Map_set_second.
  - apply Map_set_second.
Qed.

Lemma forEach_seen_step_fmap messages suf (i : Z) seen :
  forEach_from (seen_step (f <$> messages)) (f <$> suf) i
    ((λ kv, (kv.1, f kv.2)) <$> seen)
  = (λ kv, (kv.1, f kv.2)) <$> forEach_from (seen_step messages) suf i seen.
Proof.
  revert i seen. induction suf as [|x suf IH]; intros i seen; simpl; [done|].
  by rewrite seen_step_fmap, IH.
Qed.

(** Deduplication looks at ids and contents only: it commutes with every
    map that keeps both. *)
Theorem deduplicateMessages_natural (messages : list T) :
  deduplicateMessages (f <$> messages) = f <$> deduplicateMessages messages.
Proof.
  unfold deduplicateMessages, Map_values.
  pose proof (forEach_seen_step_fmap messages messages 0 []) as Hn.
  rewrite fmap_nil in Hn. rewrite Hn.
  rewrite <-!list_fmap_compose. done.
Qed.
End Natural.

(** Attaching the extracted urls to a message changes the web search
    results of the records of that message and nothing else: the list is
    the deduplicated previous list with those records updated, so ids and
    contents are the ones deduplication alone would leave. *)
Theorem attachUrls_only_results (messageId : string) (extractedUrls : list string)
    (prevMessages : list UIMessage) :
  attachUrls messageId extractedUrls prevMessages
  = (λ msg, if String.eqb (id msg) messageId
            then with_webSearchResults msg extractedUrls else msg)
    <$> deduplicateMessages prevMessages
  ∧ id <$> attachUrls messageId extractedUrls prevMessages
    = id <$> deduplicateMessages prevMessages
  ∧ content <$> attachUrls messageId extractedUrls prevMessages
    = content <$> deduplicateMessages prevMessages.
Proof.
  unfold attachUrls.
  set (g := λ msg : UIMessage, if String.eqb (id msg) messageId
                               then with_webSearchResults msg extractedUrls else msg).
  assert (∀ x, id (g x) = id x) as Hid
    by (intros x; unfold g; by destruct (String.eqb _ _)).
  assert (∀ x, content (g x) = content x) as Hcontent
    by (intros x; unfold g; by destruct (String.eqb _ _)).
  assert (deduplicateMessages (g <$> prevMessages)
          = g <$> deduplicateMessages prevMessages) as ->.
  { unfold deduplicateMessages, Map_values.
    pose proof (forEach_seen_step_fmap g Hid Hcontent prevMessages prevMessages 0 [])
      as Hn.
    rewrite fmap_nil in Hn. rewrite Hn. by rewrite <-!list_fmap_compose. }
  split; [done|].
  split; rewrite <-list_fmap_compose; apply list_fmap_ext; intros i x _;
    unfold compose; [apply Hid|apply Hcontent].
Qed.

(** ** The effect that publishes the streaming message *)

Section StreamingEffectExtras.
Context (threadId : string) (extractUrlsFromContent : string → list string).

(** Running the effect again on the same render makes no call and leaves
    its state as it is: a stream is started, published and ended once. *)
Theorem streamingEffect_rerun (status : string) (messages : list UIMessage)
    (s : StreamSync) :
  let s1 := (streamingEffect threadId extractUrlsFromContent status messages s).1 in
  streamingEffect threadId extractUrlsFromContent status messages s1 = (s1, []).
Proof.
  simpl. unfold streamingEffect.
  destruct (if String.eqb status "streaming" then last messages else None)
    as [lastMessage|] eqn:Hlast.
  - destruct (isAssistant lastMessage) eqn:Ha; simpl; [|done].
    rewrite !String.eqb_refl, Nat.eqb_refl. simpl. done.
  - destruct (if String.eqb status "streaming" then None else lastStreamingMessageRef s)
      as [lastRef|] eqn:Href; simpl.
    + destruct (String.eqb status "streaming"); [done|]. simpl. done.
    + by rewrite Href.
Qed.

(** The effect ends a stream exactly when the status is no longer
    ["streaming"] and a stream is on record, with the recorded id and
    content; while the status is ["streaming"] it ends none, also when it
    starts the stream of another message. *)
Theorem streamingEffect_ends_iff (status : string) (messages : list UIMessage)
    (s : StreamSync) (t i c : string) :
  endStreaming t i c ∈ (streamingEffect threadId extractUrlsFromContent
                          status messages s).2
  ↔ status ≠ "streaming" ∧ t = threadId
    ∧ ∃ n, lastStreamingMessageRef s
           = Some {| ref_id := i; ref_content := c; ref_lastLength := n |}.
Proof.
  unfold streamingEffect.
  destruct (String.eqb_spec status "streaming") as [->|Hne].
  - split; [|by intros [? _]].
    destruct (last messages) as [lastMessage|]; [|by intros ?%elem_of_nil].
    destruct (isAssistant lastMessage); simpl; [|by intros ?%elem_of_nil].
    intros Hin. exfalso. apply elem_of_app in Hin as [Hin|Hin].
    + match type of Hin with _ ∈ (if ?b then _ else _) => destruct b end;
        [by apply list_elem_of_singleton in Hin|by apply elem_of_nil in Hin].
    + match type of Hin with _ ∈ (if ?b then _ else _) => destruct b end;
        [|by apply elem_of_nil in Hin].
      apply elem_of_cons in Hin as [?|Hin]; [done|].
      match type of Hin with _ ∈ (if ?b then _ else _) => destruct b end;
        [by apply list_elem_of_singleton in Hin|by apply elem_of_nil in Hin].
  - destruct (lastStreamingMessageRef s) as [[ri rc rn]|]; simpl.
    + rewrite list_elem_of_singleton. split.
      * intros [= -> -> ->]. split; [done|]. split; [done|]. by exists rn.
      * intros (_ & -> & n & [= -> -> ->]). done.
    + split; [by intros ?%elem_of_nil|]. by intros (_ & _ & ? & ?).
Qed.

(** While one message streams, each tick of the interval publishes the
    content the message had in the render that started its stream, whatever
    the message holds by now. *)
Theorem interval_publishes_captured_content
    (messages1 messages2 : list UIMessage) (a a' : UIMessage) (s : StreamSync) :
  last messages1 = Some a → last messages2 = Some a' →
  isAssistant a = true → isAssistant a' = true → id a' = id a →
  (∀ r, lastStreamingMessageRef s = Some r → ref_id r ≠ id a) →
  let s1 := (streamingEffect threadId extractUrlsFromContent
               "streaming" messages1 s).1 in
  let s2 := (streamingEffect threadId extractUrlsFromContent
               "streaming" messages2 s1).1 in
  ∃ i, streamingIntervalRef s2 = Some i
       ∧ intervalTick threadId i = [updateStreamingContent threadId (id a) (content a)].
Proof.
  intros H1 H2 Ha Ha' Hid Hnew. simpl. unfold streamingEffect, intervalTick.
  rewrite String.eqb_refl, H1, Ha.
  assert (match lastStreamingMessageRef s with
          | Some r => negb (String.eqb (ref_id r) (id a))
          | None => true
          end = true) as ->.
  { destruct (lastStreamingMessageRef s) as [r|]; [|done].
    apply negb_true_iff, String.eqb_neq. by apply Hnew. }
  cbn [fst lastStreamingMessageRef streamingIntervalRef].
  rewrite H2, Ha'. cbn [fst lastStreamingMessageRef streamingIntervalRef ref_id].
  rewrite Hid, String.eqb_refl. cbn [negb].
  eexists. split; [done|]. cbn [capturedMessages capturedId].
  by rewrite H1, Ha, String.eqb_refl.
Qed.
End StreamingEffectExtras.

(** ** The changelog *)

Section ChangelogExtras.
Context (CHANGELOG : list ChangelogEntry).

Lemma find_Some {A : Type} (p : A → bool) (l : list A) (x : A) :
  find p l = Some x → x ∈ l ∧ p x = true.
Proof.
  induction l as [|y l IH]; simpl; [done|].
  destruct (p y) eqn:Hy.
  - intros [= ->]. split; [left|done].
  - intros [? ?]%IH. split; [by right|done].
Qed.

Lemma find_None {A : Type} (p : A → bool) (l : list A) :
  find p l = None ↔ ∀ x, x ∈ l → p x = false.
Proof.
  induction l as [|y l IH]; simpl.
  - split; [by intros _ x ?%elem_of_nil|done].
  - destruct (p y) eqn:Hy.
    + split; [done|]. intros Hall. specialize (Hall y). rewrite Hy in Hall.
      by specialize (Hall (list_elem_of_here _ _)).
    + rewrite IH. split.
      * by intros Hall x [->|?]%elem_of_cons; [|apply Hall].
      * intros Hall x Hx. apply Hall. by right.
Qed.

(** The versions that [getAllVersions] lists are exactly those that
    [getChangelogEntry] finds, and the entry found carries the version asked
    for; [getLatestChangelog] finds an entry unless the table is empty. *)
Theorem changelog_lookup (v : string) :
  (v ∈ getAllVersions CHANGELOG ↔ is_Some (getChangelogEntry CHANGELOG v))
  ∧ (∀ entry, getChangelogEntry CHANGELOG v = Some entry →
              version entry = v ∧ entry ∈ CHANGELOG)
  ∧ (getLatestChangelog CHANGELOG = None ↔ CHANGELOG = [])
  ∧ (∀ entry, getLatestChangelog CHANGELOG = Some entry → entry ∈ CHANGELOG).
Proof.
  unfold getAllVersions, getChangelogEntry, getLatestChangelog.
  split; [|split; [|split]].
  - split.
    + intros (entry & -> & Hin)%list_elem_of_fmap.
      destruct (find _ CHANGELOG) as [e|] eqn:Hf; [by eexists|].
      rewrite find_None in Hf. specialize (Hf entry Hin).
      by rewrite String.eqb_refl in Hf.
    + intros [entry [Hin Hv%String.eqb_eq]%find_Some]. rewrite <-Hv.
      by apply list_elem_of_fmap_2.
  - intros entry [Hin Hv%String.eqb_eq]%find_Some. done.
  - destruct (find _ CHANGELOG) as [e|] eqn:Hf.
    + split; [done|]. intros ->. done.
    + by destruct CHANGELOG.
  - intros entry. destruct (find _ CHANGELOG) as [e|] eqn:Hf.
    + intros [= <-]. by apply find_Some in Hf as [? _].
    + destruct CHANGELOG; [done|]. intros [= <-]. left.
Qed.
End ChangelogExtras.

(** ** Instances of the statements with hypotheses *)

Lemma handleStreamingBroadcast_distinct_witness :
  let st := showing [textMessage "m1" "Hi" 1; textMessage "m2" "Once" 2] in
  let ss := streamingUpdate "peer" "Once upon" true in
  messages (handleStreamingBroadcast "t1" false "local" "t1" "m2" ss st)
  = if bool_decide (ss_messageId ss ∈ id <$> messages st)
    then (λ msg, if String.eqb (id msg) (ss_messageId ss)
                 then with_content msg (ss_content ss) else msg) <$> messages st
    else messages st ++ [placeholder ss (clock st)].
Proof.
  apply (handleStreamingBroadcast_distinct "t1" false "local" "m2"
           (streamingUpdate "peer" "Once upon" true)
           (showing [textMessage "m1" "Hi" 1; textMessage "m2" "Once" 2])).
  - apply (bool_decide_unpack _). vm_compute. exact I.
  - vm_compute. congruence.
  - reflexivity.
Defined.

Lemma handleMessagesUpdated_sorted_witness :
  let st := showing [textMessage "m2" "later" 5; textMessage "m1" "earlier" 1] in
  let st' := handleMessagesUpdated "t1" false "t1" [storedMessage "m3" "new" 3] st in
  Sorted (λ a b, (time a ≤ time b)%Z) (messages st')
  ∧ NoDup (id <$> messages st').
Proof.
  apply (handleMessagesUpdated_sorted "t1" false "t1" [storedMessage "m3" "new" 3]
           (showing [textMessage "m2" "later" 5; textMessage "m1" "earlier" 1])).
  - apply (bool_decide_unpack _). vm_compute. exact I.
  - apply (bool_decide_unpack _). vm_compute. exact I.
  - vm_compute. congruence.
Defined.

Lemma handleMessagesUpdated_stored_copy_wins_witness :
  let st := showing [textMessage "m1" "a long local text" 1] in
  let updatedMessages := [storedMessage "m1" "short" 1] in
  let uiMessages := toUIMessage <$> updatedMessages in
  let st' := handleMessagesUpdated "t1" false "t1" updatedMessages st in
  (hasUpdatedMessages st uiMessages = true →
     (∀ dbMsg, dbMsg ∈ uiMessages → id dbMsg ∈ id <$> messages st →
               dbMsg ∈ messages st')
     ∧ (∀ m, m ∈ messages st → (id m ∉ id <$> uiMessages) → m ∈ messages st'))
  ∧ (hasUpdatedMessages st uiMessages = false →
     ∀ m, m ∈ messages st → m ∈ messages st').
Proof.
  apply (handleMessagesUpdated_stored_copy_wins "t1" false
           [storedMessage "m1" "short" 1]
           (showing [textMessage "m1" "a long local text" 1])).
  - apply (bool_decide_unpack _). vm_compute. exact I.
  - apply (bool_decide_unpack _). vm_compute. exact I.
Defined.

Lemma trackAppendedMessage_window_not_extended_witness :
  "m1" ∉ recentlyAppendedMessages
           (advance (2000 - 1500)
              (trackAppendedMessage "m1"
                 (advance 1500 (trackAppendedMessage "m1" (showing []))))).
Proof.
  apply (trackAppendedMessage_window_not_extended (showing []) "m1" 1500). lia.
Defined.

Lemma listen_invokes_own_callback_witness :
  let l := {| AppwriteRealtime.kind := AppwriteRealtime.Messages;
              AppwriteRealtime.scope := "u1" |} in
  let response := storeEvent "databases.main.collections.messages.documents.d1.create"
                    "u1" in
  let w := {| AppwriteRealtime.ui := 0; AppwriteRealtime.invoked := [] |} in
  let w' := {| AppwriteRealtime.ui := 1;
               AppwriteRealtime.invoked :=
                 [(AppwriteRealtime.onMessageCreated,
                   {| AppwriteRealtime.doc_id := "d1";
                      AppwriteRealtime.userId := "u1" |})] |} in
  w' = w
  ∨ ∃ name f doc,
      AppwriteRealtime.payload response = Some doc
      ∧ AppwriteRealtime.userId doc = AppwriteRealtime.scope l
      ∧ AppwriteRealtime.collection name = AppwriteRealtime.kind l
      ∧ counting name = Some f
      ∧ w' = {| AppwriteRealtime.ui := f doc (AppwriteRealtime.ui w);
                AppwriteRealtime.invoked :=
                  AppwriteRealtime.invoked w ++ [(name, doc)] |}.
Proof.
  intros l response w w'.
  apply (listen_invokes_own_callback l counting response w w').
  vm_compute. reflexivity.
Defined.

Lemma summaries_listener_needs_literal_witness :
  let response := storeEvent "databases.*.collections.*.documents.*.update" "u1" in
  head (AppwriteRealtime.events response)
    = Some "databases.*.collections.*.documents.*.create"
  ∨ head (AppwriteRealtime.events response)
    = Some "databases.*.collections.*.documents.*.update"
  ∨ head (AppwriteRealtime.events response)
    = Some "databases.*.collections.*.documents.*.delete".
Proof.
  intros response.
  apply (summaries_listener_needs_literal
           {| AppwriteRealtime.kind := AppwriteRealtime.MessageSummaries;
              AppwriteRealtime.scope := "u1" |}
           counting response
           {| AppwriteRealtime.ui := 0; AppwriteRealtime.invoked := [] |}
           {| AppwriteRealtime.ui := 1;
              AppwriteRealtime.invoked :=
                [(AppwriteRealtime.onMessageSummaryUpdated,
                  {| AppwriteRealtime.doc_id := "d1";
                     AppwriteRealtime.userId := "u1" |})] |}).
  - reflexivity.
  - vm_compute. reflexivity.
  - vm_compute. congruence.
Defined.

Lemma resubscribe_rescopes_witness :
  let c' := AppwriteRealtime.on_service
              (AppwriteRealtime.subscribeToAll (H:=mainDB) "u2")
              (AppwriteRealtime.unsubscribeFromAll loggedIn) in
  let l := {| AppwriteRealtime.kind := AppwriteRealtime.Threads;
              AppwriteRealtime.scope := "u2" |} in
  length (AppwriteRealtime.client (AppwriteRealtime.service loggedIn)) ≤ 4
    < length (AppwriteRealtime.client (AppwriteRealtime.service loggedIn)) + 4
  ∧ AppwriteRealtime.scope l = "u2"
  ∧ AppwriteRealtime.subscriptions (AppwriteRealtime.service c')
      !! AppwriteRealtime.key (AppwriteRealtime.kind l) = Some 4.
Proof.
  intros c' l.
  apply (resubscribe_rescopes (H:=mainDB) "u2" loggedIn 4
           (AppwriteRealtime.channel (H:=mainDB) "threads") l).
  - apply subscribeToAll_tracks, initial_tracks.
  - vm_compute. reflexivity.
  - apply (bool_decide_unpack _). vm_compute. exact I.
Defined.

Lemma subscribeToAll_keeps_first_scope_witness :
  let w := {| AppwriteRealtime.ui := 0; AppwriteRealtime.invoked := [] |} in
  AppwriteRealtime.listen
    {| AppwriteRealtime.kind := AppwriteRealtime.Messages;
       AppwriteRealtime.scope := "u1" |}
    counting
    (storeEvent "databases.main.collections.messages.documents.d1.create" "u2") w
  = AppwriteRealtime.Returned w.
Proof.
  intros w.
  apply (subscribeToAll_keeps_first_scope (H:=mainDB) "u1" "u2"
           (AppwriteRealtime.channel (H:=mainDB) "messages",
            {| AppwriteRealtime.kind := AppwriteRealtime.Messages;
               AppwriteRealtime.scope := "u1" |})
           counting
           (storeEvent "databases.main.collections.messages.documents.d1.create" "u2")
           w).
  - vm_compute. congruence.
  - vm_compute. right. left.
  - reflexivity.
Defined.

Lemma retryUpdater_drops_retried_witness :
  id (textMessage "a1" "answer" 2)
  ∉ (id <$> retryUpdater (textMessage "a1" "answer" 2)
              [userMessage "q1" "question" 1; textMessage "a1" "answer" 2;
               userMessage "q2" "next" 3]).
Proof.
  apply (retryUpdater_drops_retried (textMessage "a1" "answer" 2)
           [userMessage "q1" "question" 1; textMessage "a1" "answer" 2;
            userMessage "q2" "next" 3]).
  vm_compute. congruence.
Defined.

Lemma retryUpdater_keeps_user_message_last_witness :
  let messages := [userMessage "q1" "question" 1; textMessage "a1" "answer" 2;
                   userMessage "q2" "next" 3; textMessage "a2" "reply" 4] in
  ∃ m, find (λ m, String.eqb (id m) (id (userMessage "q2" "next" 3))) messages = Some m
       ∧ last (retryUpdater (userMessage "q2" "next" 3) messages) = Some m.
Proof.
  intros messages.
  apply (retryUpdater_keeps_user_message_last (userMessage "q2" "next" 3) messages).
  - reflexivity.
  - vm_compute. right. right. left.
Defined.

Lemma deduplicateMessages_natural_witness :
  let f := λ msg : UIMessage, with_webSearchResults msg ["https://example.org"] in
  let messages := [textMessage "a" "x" 1; textMessage "a" "xy" 2] in
  deduplicateMessages (f <$> messages) = f <$> deduplicateMessages messages.
Proof.
  intros f messages.
  apply (deduplicateMessages_natural f); intros x; reflexivity.
Defined.

Lemma interval_publishes_captured_content_witness :
  let a := textMessage "m2" "Once" 1 in
  let s := {| lastStreamingMessageRef := None; streamingIntervalRef := None |} in
  let s1 := (streamingEffect "t1" (λ _, []) "streaming" [a] s).1 in
  let s2 := (streamingEffect "t1" (λ _, []) "streaming"
               [textMessage "m2" "Once upon a time" 1] s1).1 in
  ∃ i, streamingIntervalRef s2 = Some i
       ∧ intervalTick "t1" i = [updateStreamingContent "t1" (id a) (content a)].
Proof.
  intros a s.
  apply (interval_publishes_captured_content "t1" (λ _, []) [a]
           [textMessage "m2" "Once upon a time" 1] a
           (textMessage "m2" "Once upon a time" 1) s);
    try reflexivity.
  intros r Hr. discriminate Hr.
Defined.
